(** * Mock knowledge-graph generator (scripts/mock_kg_gen.py)

    A shallow embedding of [extract_entities], [extract_relations] and of
    the fragment that [main] writes, together with the properties the
    specification states about them.

    Python values are modelled as follows.
    - A [str] is a sequence of Unicode code points: [list N].
    - A [list] is a [list]; indexing outside the list raises [IndexError].
    - The [dict] [entity_map] is a finite map ([gmap]).
    - The dicts that describe an entity and a triple have a fixed set of
      keys and are records.
    - Exceptions are values of the error monad [result]. *)

From Stdlib Require Import Ascii.
From stdpp Require Import gmap list pretty.

Open Scope N_scope.
Open Scope nat_scope.

(** ** Python strings *)

Abbreviation pystr := (list N).

(** A string literal of the source (all of them are ASCII). *)
Definition lit (s : string) : pystr := N_of_ascii <$> String.list_ascii_of_string s.

(** [str(n)] for a non-negative [int], as used by the f-string [f"e{i+1}"]. *)
Definition str_of_int (n : nat) : pystr := lit (pretty n).

(** ** Exceptions *)

Inductive exn := IndexError | ZeroDivisionError.

Inductive result (A : Type) :=
| Ok (a : A)
| Raise (e : exn).
Arguments Ok {A} a.
Arguments Raise {A} e.

#[global] Instance result_ret : MRet result := λ A a, Ok a.
#[global] Instance result_bind : MBind result := λ A B k m,
  match m with
  | Ok a => k a
  | Raise e => Raise e
  end.

(** [l[i]] for [i >= 0]. *)
Definition getitem {A} (l : list A) (i : nat) : result A :=
  match l !! i with
  | Some a => Ok a
  | None => Raise IndexError
  end.

(** [a % b] for non-negative [a] and [b]. *)
Definition py_mod (a b : nat) : result nat :=
  match b with
  | O => Raise ZeroDivisionError
  | S _ => Ok (a mod b)
  end.

(** [for x in xs: st = body(st, x)], stopping at the first exception. *)
Fixpoint for_each {S A} (body : S → A → result S) (st : S) (xs : list A)
  : result S :=
  match xs with
  | [] => Ok st
  | x :: xs' => st' ← body st x; for_each body st' xs'
  end.

(** ** The regular expression [\b[A-Z][a-z]+\b]

    [re.findall] on a [str] pattern works in Unicode mode: [\w] holds of
    the ASCII letters, digits and underscore and of the non-ASCII code
    points that the Unicode database classifies as alphanumeric.  That
    table is not part of the program; it is the parameter
    [unicode_alnum]. *)

Module Regex.
Section Regex.
Variable unicode_alnum : N → bool.

Definition is_upper (c : N) : bool := ((65 <=? c) && (c <=? 90))%N.
Definition is_lower (c : N) : bool := ((97 <=? c) && (c <=? 122))%N.
Definition is_digit (c : N) : bool := ((48 <=? c) && (c <=? 57))%N.

  (** [\w] *)
Definition is_word (c : N) : bool :=
    if (c <? 128)%N
    then is_upper c || is_lower c || is_digit c || (c =? 95)%N
    else unicode_alnum c.

  (** [\b] between the character before the position (if any) and the
      character at the position (if any). *)
Definition at_boundary (prev next : option N) : bool :=
    xorb (from_option is_word false prev) (from_option is_word false next).

  (** [[a-z]*\b] after the character [prev]: the star is greedy and gives
      characters back when what follows fails. *)
Fixpoint lower_star_b (prev : N) (s : pystr) : option pystr :=
    let stop := if at_boundary (Some prev) (head s) then Some [] else None in
    match s with
    | c :: s' =>
        if is_lower c then
          match lower_star_b c s' with
          | Some tok => Some (c :: tok)
          | None => stop
          end
        else stop
    | [] => stop
    end.

  (** The whole pattern tried at one position; the result is the text
      matched. *)
Definition match_here (prev : option N) (s : pystr) : option pystr :=
    if at_boundary prev (head s) then
      match s with
      | c :: d :: s' =>
          if is_upper c && is_lower d
          then (λ tok, c :: d :: tok) <$> lower_star_b d s'
          else None
      | _ => None
      end
    else None.

  (** The scan of [findall]: try the pattern at every position from left
      to right; after a match go on at its end ([skip] counts the
      characters of the last match still to be passed). *)
Fixpoint findall_from (skip : nat) (prev : option N) (s : pystr)
    : list pystr :=
    match s with
    | [] => []
    | c :: s' =>
        match skip with
        | S k => findall_from k (Some c) s'
        | O =>
            match match_here prev s with
            | Some tok => tok :: findall_from (length tok - 1) (Some c) s'
            | None => findall_from 0 (Some c) s'
            end
        end
    end.

Definition findall (text : pystr) : list pystr := findall_from 0 None text.
End Regex.
End Regex.

(** ** Entities and triples *)

Module Entity.
Record t := mk { id : pystr; label : pystr; type : pystr }.
End Entity.

Module Triple.
Record t := mk { subject : pystr; predicate : pystr; object : pystr }.
End Triple.

Definition days : list pystr :=
  lit <$> ["Monday"; "Tuesday"; "Wednesday"; "Thursday"; "Friday";
           "Saturday"; "Sunday"]%string.
Definition months : list pystr :=
  lit <$> ["January"; "February"; "March"; "April"; "May"; "June"; "July";
           "August"; "September"; "October"; "November"; "December"]%string.
Definition cities : list pystr :=
  lit <$> ["Paris"; "London"; "Berlin"; "Rome"; "Madrid"; "Vienna";
           "Amsterdam"]%string.
Definition countries : list pystr :=
  lit <$> ["France"; "Germany"; "Italy"; "Spain"; "Netherlands"; "Austria";
           "UK"; "United"]%string.

(** The [if]/[elif] chain of lines 27-36. *)
Definition entity_type (word : pystr) : pystr :=
  if bool_decide (word ∈ days) then lit "Day"
  else if bool_decide (word ∈ months) then lit "Month"
  else if bool_decide (word ∈ cities) then lit "City"
  else if bool_decide (word ∈ countries) then lit "Country"
  else lit "Concept".

Definition relation_types : list pystr :=
  lit <$> ["relates_to"; "part_of"; "associated_with"; "belongs_to"]%string.

(** The entity that round [i] of the loop of [extract_entities] appends
    for [word]. *)
Definition entity_of (i : nat) (word : pystr) : Entity.t :=
  Entity.mk (lit "e" ++ str_of_int (i + 1)) word (entity_type word).

Section MockGenerator.
Variable unicode_alnum : N → bool.

  (** Iterating over [set(words)]: the order is the one of the hash table
      and is not fixed by the language.  [set_iter words] is the sequence
      in which the elements of [set(words)] come out; all that is known of
      it is that it lists every word once. *)
Variable set_iter : list pystr → list pystr.
Hypothesis set_iter_NoDup : ∀ words, NoDup (set_iter words).
Hypothesis set_iter_elem : ∀ words w, w ∈ set_iter words ↔ w ∈ words.

  (** One round of the loop of [extract_entities] on the pair [(i, word)]
      of [enumerate]; the state is [(entities, entity_map)]. *)
Definition extract_entities_body
      (st : list Entity.t * gmap pystr pystr) (iw : nat * pystr)
    : list Entity.t * gmap pystr pystr :=
    let '(entities, entity_map) := st in
    let '(i, word) := iw in
  let entity_id := lit "e" ++ str_of_int (i + 1) in
    let entity_map := <[word := entity_id]> entity_map in
    let entity_type := entity_type word in
    (entities ++ [Entity.mk entity_id word entity_type], entity_map).

Definition enumerate {A} (l : list A) : list (nat * A) := imap pair l.

Definition extract_entities (text : pystr)
    : list Entity.t * gmap pystr pystr :=
    let words := Regex.findall unicode_alnum text in
    foldl extract_entities_body ([], ∅) (enumerate (set_iter words)).

  (** One round of the loop of [extract_relations]; the state is
      [triples]. *)
Definition extract_relations_body
      (entities : list Entity.t) (selected_relations : list pystr)
      (triples : list Triple.t) (i : nat) : result (list Triple.t) :=
    subject_entity ← getitem entities i;
    j ← py_mod (i + 1) (length entities);
    object_entity ← getitem entities j;
    k ← py_mod i (length selected_relations);
    relation ← getitem selected_relations k;
    Ok (triples ++ [Triple.mk (Entity.id subject_entity) relation
                               (Entity.id object_entity)]).

Definition extract_relations
      (entities : list Entity.t) (entity_map : gmap pystr pystr)
    : result (list pystr * list Triple.t) :=
    if decide (length entities < 2) then Ok ([], [])
    else
      let selected_relations :=
        if decide (length entities = 2) then take 1 relation_types
        else take (min (length entities - 1) (length relation_types))
                  relation_types in
      triples ← for_each (extract_relations_body entities selected_relations)
                         [] (seq 0 (min (length entities - 1) 5));
      Ok (selected_relations, triples).
End MockGenerator.

(** ** The fragment and its JSON text

    [main] builds the fragment as a [dict] and writes it with
    [json.dump(fragment, f, indent=2)].  The encoder and the decoder of
    the [json] module belong to the Python library, not to the program;
    they are modelled here after the library's [json/encoder.py] and
    [json/decoder.py], for the values a fragment is made of: strings,
    lists and dicts. *)

(** The Python values of a fragment.  A [dict] lists its items in
    insertion order. *)
#[local] Set Warnings "-register-all".
Inductive pyobj :=
| PStr (s : pystr)
| PList (l : list pyobj)
| PDict (d : list (pystr * pyobj)).

(** [d[k] = v] *)
Fixpoint dict_set (d : list (pystr * pyobj)) (k : pystr) (v : pyobj)
  : list (pystr * pyobj) :=
  match d with
  | [] => [(k, v)]
  | (k', v') :: d' =>
      if decide (k = k') then (k, v) :: d' else (k', v') :: dict_set d' k v
  end.

(** [dict(pairs)] *)
Definition dict (pairs : list (pystr * pyobj)) : list (pystr * pyobj) :=
  foldl (λ d kv, dict_set d kv.1 kv.2) [] pairs.

Definition is_high_surrogate (c : N) : bool :=
  ((0xd800 <=? c) && (c <=? 0xdbff))%N.
Definition is_low_surrogate (c : N) : bool :=
  ((0xdc00 <=? c) && (c <=? 0xdfff))%N.

Module Json.

(** *** Encoder *)

(** One digit of ['{0:04x}'.format(n)]. *)
Definition hex_digit (d : N) : N := (if d <? 10 then 48 + d else 87 + d)%N.

(** ['{0:04x}'.format(n)]; the encoder calls it with [n < 0x10000]. *)
Definition format_04x (n : N) : pystr :=
  [hex_digit (n / 4096); hex_digit (n / 256 mod 16);
   hex_digit (n / 16 mod 16); hex_digit (n mod 16)]%N.

(** The pattern [ESCAPE_ASCII]: a backslash, a double quote, or any
    character outside the range from space to tilde. *)
Definition ESCAPE_ASCII (c : N) : bool :=
  ((c =? 92) || (c =? 34) || negb ((32 <=? c) && (c <=? 126)))%N.

(** The table [ESCAPE_DCT]. *)
Definition ESCAPE_DCT (c : N) : option pystr :=
  (if c =? 92 then Some [92; 92]
   else if c =? 34 then Some [92; 34]
   else if c =? 8 then Some [92; 98]
   else if c =? 12 then Some [92; 102]
   else if c =? 10 then Some [92; 110]
   else if c =? 13 then Some [92; 114]
   else if c =? 9 then Some [92; 116]
   else None)%N.

(** The function [replace] of [py_encode_basestring_ascii]. *)
Definition replace (c : N) : pystr :=
  match ESCAPE_DCT c with
  | Some r => r
  | None =>
      if (c <? 0x10000)%N then 92%N :: 117%N :: format_04x c
      else
        let n := (c - 0x10000)%N in
        let s1 := N.lor 0xd800 (N.land (N.shiftr n 10) 0x3ff) in
        let s2 := N.lor 0xdc00 (N.land n 0x3ff) in
        (92%N :: 117%N :: format_04x s1) ++ (92%N :: 117%N :: format_04x s2)
  end.

Definition escape_char (c : N) : pystr :=
  if ESCAPE_ASCII c then replace c else [c].

Definition escape (s : pystr) : pystr := concat (escape_char <$> s).

Definition encode_basestring_ascii (s : pystr) : pystr :=
  34%N :: escape s ++ [34%N].

(** ["\n" + " " * (2 * level)] *)
Definition newline_indent (level : nat) : pystr :=
  10%N :: replicate (2 * level) 32%N.

Definition item_separator (level : nat) : pystr := 44%N :: newline_indent level.
Definition key_separator : pystr := [58; 32]%N.

(** The loop over the items of a list or of a dict: the separator goes
    before every item but the first. *)
Definition iterencode_items {A} (enc : A → pystr) (sep : pystr)
  : bool → list A → pystr :=
  fix go (first : bool) (l : list A) : pystr :=
    match l with
    | [] => []
    | x :: l' => (if first then [] else sep) ++ enc x ++ go false l'
    end.

(** [_iterencode] with [_iterencode_list] and [_iterencode_dict], at the
    indentation level [level]. *)
Fixpoint iterencode (level : nat) (o : pyobj) : pystr :=
  match o with
  | PStr s => encode_basestring_ascii s
  | PList [] => [91; 93]%N
  | PList l =>
      91%N :: newline_indent (S level)
      ++ iterencode_items (iterencode (S level)) (item_separator (S level))
           true l
      ++ newline_indent level ++ [93%N]
  | PDict [] => [123; 125]%N
  | PDict d =>
      123%N :: newline_indent (S level)
      ++ iterencode_items
           (λ kv, let '(key, value) := kv in
                  encode_basestring_ascii key ++ key_separator
                  ++ iterencode (S level) value)
           (item_separator (S level)) true d
      ++ newline_indent level ++ [125%N]
  end.

(** The text that [json.dump(o, f, indent=2)] writes. *)
Definition dump (o : pyobj) : pystr := iterencode 0 o.

(** *** Decoder *)

Definition WHITESPACE (c : N) : bool :=
  ((c =? 32) || (c =? 9) || (c =? 10) || (c =? 13))%N.

Fixpoint skip_ws (s : pystr) : pystr :=
  match s with
  | c :: s' => if WHITESPACE c then skip_ws s' else s
  | [] => []
  end.

Definition hex_value (c : N) : option N :=
  (if (48 <=? c) && (c <=? 57) then Some (c - 48)
   else if (97 <=? c) && (c <=? 102) then Some (c - 87)
   else if (65 <=? c) && (c <=? 70) then Some (c - 55)
   else None)%N.

(** [_decode_uXXXX]: the value of four hexadecimal digits. *)
Definition decode_uXXXX (h1 h2 h3 h4 : N) : option N :=
  d1 ← hex_value h1; d2 ← hex_value h2;
  d3 ← hex_value h3; d4 ← hex_value h4;
  Some (((d1 * 16 + d2) * 16 + d3) * 16 + d4)%N.

(** The table [BACKSLASH]. *)
Definition BACKSLASH (esc : N) : option N :=
  (if esc =? 34 then Some 34
   else if esc =? 92 then Some 92
   else if esc =? 47 then Some 47
   else if esc =? 98 then Some 8
   else if esc =? 102 then Some 12
   else if esc =? 110 then Some 10
   else if esc =? 114 then Some 13
   else if esc =? 116 then Some 9
   else None)%N.

Definition join_surrogates (uni uni2 : N) : N :=
  (0x10000 + N.lor (N.shiftl (uni - 0xd800) 10) (uni2 - 0xdc00))%N.

Definition prepend (c : N) (r : option (pystr * pystr))
  : option (pystr * pystr) :=
  '(str, rest) ← r; Some (c :: str, rest).

(** [scanstring] (strict), started after the opening quote: the string
    and the text after the closing quote, or [None] for a decoding
    error.  An escaped high surrogate directly followed by an escaped low
    surrogate is one character. *)
Fixpoint scanstring (s : pystr) : option (pystr * pystr) :=
  match s with
  | [] => None
  | c :: s1 =>
      if (c =? 34)%N then Some ([], s1)
      else if (c =? 92)%N then
        match s1 with
        | [] => None
        | esc :: s2 =>
            if (esc =? 117)%N then
              match s2 with
              | h1 :: h2 :: h3 :: h4 :: s3 =>
                  match decode_uXXXX h1 h2 h3 h4 with
                  | None => None
                  | Some uni =>
                      let single := prepend uni (scanstring s3) in
                      if is_high_surrogate uni then
                        match s3 with
                        | b :: u :: g1 :: g2 :: g3 :: g4 :: s4 =>
                            if ((b =? 92) && (u =? 117))%N then
                              match decode_uXXXX g1 g2 g3 g4 with
                              | None => None
                              | Some uni2 =>
                                  if is_low_surrogate uni2
                                  then prepend (join_surrogates uni uni2)
                                               (scanstring s4)
                                  else single
                              end
                            else single
                        | _ => single
                        end
                      else single
                  end
              | _ => None
              end
            else
              match BACKSLASH esc with
              | Some char => prepend char (scanstring s2)
              | None => None
              end
        end
      else if (c <=? 31)%N then None
      else prepend c (scanstring s1)
  end.

(** [scan_once] with the loops of [JSONObject] and [JSONArray].  Every
    call reads at least one character, so [fuel] above the length of the
    text never runs out.  Numbers and the literals [null], [true] and
    [false] are not values of a fragment and are not read. *)
Fixpoint scan_once (fuel : nat) (s : pystr) : option (pyobj * pystr) :=
  match fuel with
  | O => None
  | S fuel =>
      match s with
      | [] => None
      | c :: s1 =>
          if (c =? 34)%N then
            '(str, rest) ← scanstring s1; Some (PStr str, rest)
          else if (c =? 123)%N then
            match skip_ws s1 with
            | [] => None
            | c2 :: s2 =>
                if (c2 =? 125)%N then Some (PDict [], s2)
                else '(pairs, rest) ← JSONObject_loop fuel (c2 :: s2);
                     Some (PDict (dict pairs), rest)
            end
          else if (c =? 91)%N then
            match skip_ws s1 with
            | [] => None
            | c2 :: s2 =>
                if (c2 =? 93)%N then Some (PList [], s2)
                else '(values, rest) ← JSONArray_loop fuel (c2 :: s2);
                     Some (PList values, rest)
            end
          else None
      end
  end
with JSONObject_loop (fuel : nat) (s : pystr)
  : option (list (pystr * pyobj) * pystr) :=
  match fuel with
  | O => None
  | S fuel =>
      match s with
      | [] => None
      | q :: s1 =>
          if (q =? 34)%N then
            '(key, s2) ← scanstring s1;
            match skip_ws s2 with
            | [] => None
            | colon :: s3 =>
                if (colon =? 58)%N then
                  '(value, s4) ← scan_once fuel (skip_ws s3);
                  match skip_ws s4 with
                  | [] => None
                  | nextchar :: s5 =>
                      if (nextchar =? 125)%N then Some ([(key, value)], s5)
                      else if (nextchar =? 44)%N then
                        '(pairs, rest) ← JSONObject_loop fuel (skip_ws s5);
                        Some ((key, value) :: pairs, rest)
                      else None
                  end
                else None
            end
          else None
      end
  end
with JSONArray_loop (fuel : nat) (s : pystr)
  : option (list pyobj * pystr) :=
  match fuel with
  | O => None
  | S fuel =>
      '(value, s1) ← scan_once fuel s;
      match skip_ws s1 with
      | [] => None
      | nextchar :: s2 =>
          if (nextchar =? 93)%N then Some ([value], s2)
          else if (nextchar =? 44)%N then
            '(values, rest) ← JSONArray_loop fuel (skip_ws s2);
            Some (value :: values, rest)
          else None
      end
  end.

(** [json.load]: one value, with whitespace around it and nothing else. *)
Definition load (s : pystr) : option pyobj :=
  '(obj, rest) ← scan_once (S (length s)) (skip_ws s);
  match skip_ws rest with
  | [] => Some obj
  | _ => None
  end.

End Json.

(** A string whose code points are in range and in which no high
    surrogate is directly followed by a low surrogate. *)
Fixpoint str_ok (s : pystr) : bool :=
  match s with
  | [] => true
  | c :: s' =>
      (c <? 0x110000)%N
      && negb (is_high_surrogate c
               && from_option is_low_surrogate false (head s'))
      && str_ok s'
  end.

(** *** Notions used to state the round trip *)

(** The text [t] begins with an escape [\uXXXX] that the decoder would
    take for the second half of a surrogate pair (or could not read). *)
Definition lookahead_low (t : pystr) : bool :=
  match t with
  | b :: t1 =>
      (b =? 92)%N &&
      match t1 with
      | u :: t2 =>
          (u =? 117)%N &&
          match t2 with
          | g1 :: g2 :: g3 :: g4 :: _ =>
              match Json.decode_uXXXX g1 g2 g3 g4 with
              | Some uni2 => is_low_surrogate uni2
              | None => true
              end
          | _ => false
          end
      | [] => false
      end
  | [] => false
  end.

(** A value all of whose strings satisfy [str_ok] and whose dicts have
    pairwise distinct keys (as every Python [dict] has). *)
Fixpoint obj_ok (o : pyobj) : bool :=
  match o with
  | PStr s => str_ok s
  | PList l => forallb obj_ok l
  | PDict d =>
      forallb (λ kv, let '(key, value) := kv in str_ok key && obj_ok value) d
      && bool_decide (NoDup d.*1)
  end.

(** Fuel that is enough for [scan_once] to read the text of [o]. *)
Fixpoint fuel_for (o : pyobj) : nat :=
  match o with
  | PStr _ => 1
  | PList l => S (sum_list_with (λ x, S (fuel_for x)) l)
  | PDict d =>
      S (sum_list_with (λ kv, let '(_, value) := kv in S (fuel_for value)) d)
  end.

(** The text of one item of a dict, as in [iterencode]. *)
Definition iterencode_item (level : nat) (kv : pystr * pyobj) : pystr :=
  let '(key, value) := kv in
  Json.encode_basestring_ascii key ++ Json.key_separator
  ++ Json.iterencode level value.

(** [scan_once] reads the text of [o] back, whatever follows it. *)
Definition reads_back (o : pyobj) : Prop :=
  ∀ level fuel rest,
    fuel_for o ≤ fuel →
    Json.scan_once fuel (Json.iterencode level o ++ rest) = Some (o, rest).

(** ** [main]: the fragment *)

Definition entity_dict (e : Entity.t) : pyobj :=
  PDict [(lit "id", PStr (Entity.id e));
         (lit "label", PStr (Entity.label e));
         (lit "type", PStr (Entity.type e))].

Definition triple_dict (t : Triple.t) : pyobj :=
  PDict [(lit "subject", PStr (Triple.subject t));
         (lit "predicate", PStr (Triple.predicate t));
         (lit "object", PStr (Triple.object t))].

Definition fragment (note_id : pystr) (entities : list Entity.t)
    (relations : list pystr) (triples : list Triple.t) : pyobj :=
  PDict [(lit "note_id", PStr note_id);
         (lit "entities", PList (entity_dict <$> entities));
         (lit "relations", PList (PStr <$> relations));
         (lit "triples", PList (triple_dict <$> triples))].

(** [os.path.basename(p)]: what follows the last ["/"]; [cur] is what
    follows the last ["/"] seen so far. *)
Fixpoint basename_from (cur p : pystr) : pystr :=
  match p with
  | [] => cur
  | c :: p' => if (c =? 47)%N then basename_from p' p' else basename_from cur p'
  end.
Definition basename (p : pystr) : pystr := basename_from p p.

(** [s.split(sep)[0]]: what precedes the first [sep]. *)
Fixpoint split_head (sep : N) (s : pystr) : pystr :=
  match s with
  | [] => []
  | c :: s' => if (c =? sep)%N then [] else c :: split_head sep s'
  end.

(** Lines 95-105 of [main]: the fragment made from the path [input] of
    the input file and its content [text]. *)
Definition main_fragment (unicode_alnum : N → bool)
    (set_iter : list pystr → list pystr) (input text : pystr)
  : result pyobj :=
  let '(entities, entity_map) :=
    extract_entities unicode_alnum set_iter text in
  '(relations, triples) ← extract_relations entities entity_map;
  let note_id := split_head 45 (basename input) in
  Ok (fragment note_id entities relations triples).

(** Lines 86-92 of [main]: [open(args.input, 'r')] and [f.read()].
    [open] encodes the path for the operating system with the file-system
    encoding, UTF-8 with the surrogateescape handler: a surrogate other
    than U+DC80..U+DCFF cannot be encoded and a NUL character is refused,
    and [open] raises.  What the file system holds at a path is not part
    of the program: [fs input] is the text read, [None] when the file
    cannot be opened, read or decoded.  [main] catches every exception of
    these lines and exits with status 1. *)
Definition fs_encodable (c : N) : bool :=
  (negb (c =? 0)
   && ((c <? 0xd800) || ((0xdc80 <=? c) && (c <=? 0xdcff))
       || ((0xe000 <=? c) && (c <? 0x110000))))%N.

Definition read_input (fs : pystr → option pystr) (input : pystr)
  : option pystr :=
  if forallb fs_encodable input then fs input else None.

(** How [main] gets on up to [json.dump]: it exits at the read, or an
    exception of the extraction is not caught, or it passes the fragment
    to [json.dump]. *)
Inductive outcome :=
| ExitAtRead
| Uncaught (e : exn)
| Dumps (frag : pyobj).

(** Lines 86-111 of [main], for the input path [input] on the file system
    [fs]. *)
Definition main (unicode_alnum : N → bool)
    (set_iter : list pystr → list pystr) (fs : pystr → option pystr)
    (input : pystr) : outcome :=
  match read_input fs input with
  | None => ExitAtRead
  | Some text =>
      match main_fragment unicode_alnum set_iter input text with
      | Ok frag => Dumps frag
      | Raise e => Uncaught e
      end
  end.

(** ** The scripts that call the real generator

    [kg_gen_cli.py] and [direct_kggen_test.py] turn the object that the
    generator returns into the same fragment.  The generator is outside
    the program; its result is taken as it is used: entities with [id],
    [label] and a [type] that may be [None], relation strings, and
    triples. *)

Module Graph.
Record entity := mk_entity
  { id : pystr; label : pystr; type : option pystr }.
Record triple := mk_triple
  { subject : pystr; predicate : pystr; object : pystr }.
Record t := mk
  { entities : list entity; relations : list pystr; triples : list triple }.
End Graph.

(** [x or d] for [x] a string or [None]: [None] and the empty string are
    false. *)
Definition or_default (x : option pystr) (d : pystr) : pystr :=
  match x with
  | Some (c :: s) => c :: s
  | _ => d
  end.

(** The three comprehensions of [kg_gen_cli.py], lines 71-73. *)
Definition convert_entity (e : Graph.entity) : Entity.t :=
  Entity.mk (Graph.id e) (Graph.label e)
            (or_default (Graph.type e) (lit "Concept")).
Definition convert_triple (t : Graph.triple) : Triple.t :=
  Triple.mk (Graph.subject t) (Graph.predicate t) (Graph.object t).

(** The [result] of [kg_gen_cli.py], lines 69-74: the note id is the file
    name up to its first dot. *)
Definition cli_result (input : pystr) (graph : Graph.t) : pyobj :=
  fragment (split_head 46 (basename input))
           (convert_entity <$> Graph.entities graph)
           (Graph.relations graph)
           (convert_triple <$> Graph.triples graph).

(** *** Notions used to state what the regular expression matches *)

(** A capital letter followed by one small letter or more. *)
Definition is_capitalized (tok : pystr) : bool :=
  match tok with
  | c :: d :: lows =>
      Regex.is_upper c && Regex.is_lower d && forallb Regex.is_lower lows
  | _ => false
  end.

(** The character before a position after the text [t] has been passed:
    the last one of [t], or [prev] when [t] is empty. *)
Definition prev_after (prev : option N) (t : pystr) : option N :=
  match last t with
  | Some c => Some c
  | None => prev
  end.

(** A character of the text written by [json.dump]: a newline or a
    printable ASCII character. *)
Definition printable (c : N) : Prop := c = 10%N ∨ (32 ≤ c ≤ 126)%N.

(** [set(words)] iterated in the order of last occurrence: another order
    a hash table can give. *)
Definition last_seen (words : list pystr) : list pystr := remove_dups words.

(** [set(words)] iterated in the order of first occurrence: one of the
    orders a hash table can give, used to run the model on examples. *)
Definition first_seen (words : list pystr) : list pystr :=
  reverse (remove_dups (reverse words)).

Definition no_unicode : N → bool := λ _, false.

(** A text and a path to run the model on. *)
Definition sample_text : pystr :=
  lit "Paris is nice in June. Berlin and Rome on Monday, Zed France Xx".
Definition sample_input : pystr := lit "/notes/n1-draft.txt".
Definition sample_entities : list Entity.t :=
  (extract_entities no_unicode first_seen sample_text).1.
Definition sample_entity_map : gmap pystr pystr :=
  (extract_entities no_unicode first_seen sample_text).2.
Definition sample_relations : list pystr :=
  match extract_relations sample_entities sample_entity_map with
  | Ok (relations, _) => relations
  | Raise _ => []
  end.
Definition sample_triples : list Triple.t :=
  match extract_relations sample_entities sample_entity_map with
  | Ok (_, triples) => triples
  | Raise _ => []
  end.
(** A result of the generator to run the model on: one entity without a
    type, one with an empty type, one with a type. *)
Definition sample_graph : Graph.t :=
  Graph.mk
    [Graph.mk_entity (lit "a") (lit "Ada") None;
     Graph.mk_entity (lit "b") (lit "Bonn") (Some []);
     Graph.mk_entity (lit "c") (lit "Caen") (Some (lit "City"))]
    [lit "lives_in"]
    [Graph.mk_triple (lit "a") (lit "lives_in") (lit "b")].
(** A file system with one file, and the fragment made from it. *)
Definition sample_fs (path : pystr) : option pystr :=
  if decide (path = sample_input) then Some sample_text else None.
Definition sample_fragment : pyobj :=
  match main_fragment no_unicode first_seen sample_input sample_text with
  | Ok frag => frag
  | Raise _ => PList []
  end.

(** A text in which a word comes twice: the two iteration orders differ
    on it. *)
Definition repeat_text : pystr := lit "Paris Rome Paris".
Definition short_text : pystr := lit "Paris is nice in June.".
Definition short_entities : list Entity.t :=
  (extract_entities no_unicode first_seen short_text).1.
Definition short_entity_map : gmap pystr pystr :=
  (extract_entities no_unicode first_seen short_text).2.

(** * Properties *)

(** ** The model at work *)

Example findall_paris :
  Regex.findall no_unicode short_text = [lit "Paris"; lit "June"].
Proof. by vm_compute. Qed.

(** A capital letter after a word character, a token followed by a digit
    or an underscore, and a capital letter alone do not match. *)
Example findall_edges :
  Regex.findall no_unicode (lit "AB Cd_e Xy9 Zz-Ok okAy Q Rs")
  = [lit "Zz"; lit "Ok"; lit "Rs"].
Proof. by vm_compute. Qed.

(** The end-to-end example of the specification. *)
Example short_text_fragment :
  short_entities
  = [Entity.mk (lit "e1") (lit "Paris") (lit "City");
     Entity.mk (lit "e2") (lit "June") (lit "Month")] ∧
  extract_relations short_entities short_entity_map
  = Ok ([lit "relates_to"],
        [Triple.mk (lit "e1") (lit "relates_to") (lit "e2")]).
Proof. by vm_compute. Qed.

(** ** The error monad and the loops *)

Lemma bind_Ok {A B} (a : A) (k : A → result B) : Ok a ≫= k = k a.
Proof. reflexivity. Qed.

Lemma getitem_Ok {A} (l : list A) i a : l !! i = Some a → getitem l i = Ok a.
Proof. unfold getitem. by intros ->. Qed.

Lemma getitem_lt {A} (l : list A) i :
  i < length l → ∃ a, l !! i = Some a ∧ getitem l i = Ok a.
Proof.
  intros Hi. destruct (lookup_lt_is_Some_2 l i Hi) as [a Ha].
  exists a. split; [done | by apply getitem_Ok].
Qed.

Lemma py_mod_pos a b : 0 < b → py_mod a b = Ok (a mod b).
Proof. destruct b; [lia | done]. Qed.

Lemma length_relation_types : length relation_types = 4.
Proof. reflexivity. Qed.

Section MockGeneratorFacts.
Variable unicode_alnum : N → bool.
Variable set_iter : list pystr → list pystr.
Hypothesis set_iter_NoDup : ∀ words, NoDup (set_iter words).
Hypothesis set_iter_elem : ∀ words w, w ∈ set_iter words ↔ w ∈ words.

Local Abbreviation extract_entities := (extract_entities unicode_alnum set_iter).
Local Abbreviation findall := (Regex.findall unicode_alnum).

  (** *** [extract_relations] *)

Lemma extract_relations_body_Ok entities rels triples i :
    i + 1 < length entities → 0 < length rels →
    ∃ e1 e2 r,
      entities !! i = Some e1 ∧
      entities !! ((i + 1) mod length entities) = Some e2 ∧
      rels !! (i mod length rels) = Some r ∧
      extract_relations_body entities rels triples i
      = Ok (triples ++ [Triple.mk (Entity.id e1) r (Entity.id e2)]).
  Proof.
    intros Hi Hr.
    destruct (getitem_lt entities i) as (e1 & He1 & Hg1); [lia|].
    destruct (getitem_lt entities ((i + 1) mod length entities))
      as (e2 & He2 & Hg2); [apply Nat.mod_upper_bound; lia|].
    destruct (getitem_lt rels (i mod length rels)) as (r & Hr1 & Hg3);
      [apply Nat.mod_upper_bound; lia|].
    exists e1, e2, r. repeat split; try done.
    unfold extract_relations_body.
    rewrite Hg1, bind_Ok.
    rewrite (py_mod_pos (i + 1) (length entities)), bind_Ok by lia.
    rewrite Hg2, bind_Ok.
    by rewrite (py_mod_pos i (length rels)), bind_Ok, Hg3, bind_Ok by lia.
  Qed.

Lemma extract_relations_loop entities rels :
    0 < length rels →
    ∀ n start acc,
      start + n < length entities →
      ∃ ts,
        for_each (extract_relations_body entities rels) acc (seq start n)
        = Ok (acc ++ ts) ∧
        length ts = n ∧
        ∀ k, k < n →
          ∃ e1 e2 r,
            entities !! (start + k) = Some e1 ∧
            entities !! ((start + k + 1) mod length entities) = Some e2 ∧
            rels !! ((start + k) mod length rels) = Some r ∧
            ts !! k = Some (Triple.mk (Entity.id e1) r (Entity.id e2)).
  Proof.
    intros Hr n. induction n as [|n IH]; intros start acc Hn.
    - exists []. simpl. rewrite app_nil_r. repeat split. intros; lia.
    - destruct (extract_relations_body_Ok entities rels acc start)
        as (e1 & e2 & r & He1 & He2 & Hr1 & Hb); [lia | done |].
      destruct (IH (S start)
                  (acc ++ [Triple.mk (Entity.id e1) r (Entity.id e2)]))
        as (ts & Hts & Hlen & Hk); [lia|].
      exists (Triple.mk (Entity.id e1) r (Entity.id e2) :: ts).
      split; [|split].
      + simpl. rewrite Hb, bind_Ok, Hts. by rewrite <- app_assoc.
      + simpl. by rewrite Hlen.
      + intros [|k] Hlt.
        * rewrite Nat.add_0_r. by exists e1, e2, r.
        * destruct (Hk k) as (f1 & f2 & q & ? & ? & ? & ?); [lia|].
          exists f1, f2, q.
          by replace (start + S k) with (S start + k) by lia.
  Qed.

  (** What [extract_relations] returns on two entities or more. *)
Lemma extract_relations_spec entities entity_map :
    2 ≤ length entities →
    ∃ ts,
      extract_relations entities entity_map
      = Ok (take (min (length entities - 1) 4) relation_types, ts) ∧
      length ts = min (length entities - 1) 5 ∧
      ∀ i, i < min (length entities - 1) 5 →
        ∃ e1 e2 r,
          entities !! i = Some e1 ∧
          entities !! ((i + 1) mod length entities) = Some e2 ∧
          take (min (length entities - 1) 4) relation_types
            !! (i mod min (length entities - 1) 4) = Some r ∧
          ts !! i = Some (Triple.mk (Entity.id e1) r (Entity.id e2)).
  Proof.
    intros HN. unfold extract_relations.
    destruct (decide (length entities < 2)) as [|_]; [lia|].
    set (rels := take (min (length entities - 1) 4) relation_types).
    assert (Hrels : (if decide (length entities = 2)
                     then take 1 relation_types
                     else take (min (length entities - 1)
                                    (length relation_types)) relation_types)
                    = rels).
    { subst rels. destruct (decide (length entities = 2)) as [->|]; done. }
    rewrite Hrels.
    assert (Hlen : length rels = min (length entities - 1) 4).
    { subst rels. rewrite length_take, length_relation_types. lia. }
    destruct (extract_relations_loop entities rels)
      with (n := min (length entities - 1) 5) (start := 0)
           (acc := @nil Triple.t)
      as (ts & Hts & Hl & Hk); [lia | lia |].
    exists ts. rewrite Hts, bind_Ok. simpl.
    repeat split; [done|].
    intros i Hi. destruct (Hk i Hi) as (e1 & e2 & r & ? & ? & ? & ?).
    exists e1, e2, r. by rewrite <- Hlen.
  Qed.
(** *** [extract_entities] *)

Lemma extract_entities_loop (l : list pystr) :
  ∀ k entities entity_map,
    (foldl extract_entities_body (entities, entity_map)
       (imap (λ i w, (k + i, w)) l)).1
    = entities ++ imap (λ i w, entity_of (k + i) w) l.
Proof.
  induction l as [|w l IH]; intros k entities entity_map.
  - simpl. by rewrite app_nil_r.
  - rewrite !imap_cons. simpl.
    rewrite (imap_ext _ (λ i w, (S k + i, w)))
      by (intros; simpl; f_equal; lia).
    rewrite IH, <- app_assoc. simpl. unfold entity_of at 2.
    rewrite Nat.add_0_r. do 2 f_equal.
    apply imap_ext. intros. simpl. f_equal. lia.
Qed.

Lemma extract_entities_fst text :
  (extract_entities text).1 = imap entity_of (set_iter (findall text)).
Proof.
  unfold extract_entities, enumerate.
  rewrite (imap_ext _ (λ i w, (0 + i, w))) by done.
  by rewrite extract_entities_loop.
Qed.

Lemma extract_entities_length text :
  length (extract_entities text).1 = length (set_iter (findall text)).
Proof. by rewrite extract_entities_fst, length_imap. Qed.

Lemma extract_entities_lookup text i e :
  (extract_entities text).1 !! i = Some e ↔
  ∃ w, set_iter (findall text) !! i = Some w ∧ e = entity_of i w.
Proof.
  rewrite extract_entities_fst, list_lookup_imap.
  destruct (set_iter (findall text) !! i) as [w|]; simpl; split.
  - intros [= <-]. by exists w.
  - by intros (w' & [= <-] & ->).
  - done.
  - by intros (w' & ? & _).
Qed.

Lemma extract_entities_labels text :
  Entity.label <$> (extract_entities text).1 = set_iter (findall text).
Proof.
  rewrite extract_entities_fst. apply list_eq. intros i.
  rewrite list_lookup_fmap, list_lookup_imap.
  by destruct (set_iter (findall text) !! i).
Qed.

Lemma set_iter_length words : length (set_iter words) ≤ length words.
Proof.
  apply submseteq_length, NoDup_submseteq; [apply set_iter_NoDup|].
  intros w. apply set_iter_elem.
Qed.

End MockGeneratorFacts.

(** ** Relations and triples *)

Lemma extract_relations_inv entities entity_map rels ts :
  extract_relations entities entity_map = Ok (rels, ts) →
  (length entities < 2 ∧ rels = [] ∧ ts = []) ∨
  (2 ≤ length entities ∧
   rels = take (min (length entities - 1) 4) relation_types ∧
   length rels = min (length entities - 1) 4 ∧
   length ts = min (length entities - 1) 5 ∧
   ∀ i, i < length ts →
     ∃ e1 e2 r,
       entities !! i = Some e1 ∧
       entities !! ((i + 1) mod length entities) = Some e2 ∧
       rels !! (i mod length rels) = Some r ∧
       ts !! i = Some (Triple.mk (Entity.id e1) r (Entity.id e2))).
Proof.
  intros Hrun. destruct (decide (length entities < 2)) as [Hlt|Hge].
  - left. unfold extract_relations in Hrun.
    destruct (decide (length entities < 2)); [|lia].
    by injection Hrun as <- <-.
  - right. destruct (extract_relations_spec entities entity_map)
      as (ts' & Hok & Hlen & Hi); [lia|].
    rewrite Hok in Hrun. injection Hrun as <- <-.
    assert (length (take (min (length entities - 1) 4) relation_types)
            = min (length entities - 1) 4) as Hr.
    { rewrite length_take, length_relation_types. lia. }
    repeat split; [lia | done | done |].
    intros i Hlt. rewrite Hr. apply Hi. lia.
Qed.

(** C1: on an entity list of length N >= 2 (in particular one made by
    [extract_entities]) [extract_relations] returns min(N-1, 5) triples;
    triple i has the id of entities[i] as subject, the id of
    entities[(i+1) mod N] as object and relations[i mod len(relations)] as
    predicate, so every subject and object is the id of an entity. *)
Theorem triples_shape (entities : list Entity.t) entity_map :
  2 ≤ length entities →
  ∃ rels ts,
    extract_relations entities entity_map = Ok (rels, ts) ∧
    length ts = min (length entities - 1) 5 ∧
    (∀ i, i < min (length entities - 1) 5 →
       ∃ e1 e2 r,
         entities !! i = Some e1 ∧
         entities !! ((i + 1) mod length entities) = Some e2 ∧
         rels !! (i mod length rels) = Some r ∧
         ts !! i = Some (Triple.mk (Entity.id e1) r (Entity.id e2))) ∧
    (∀ t, t ∈ ts →
       Triple.subject t ∈ Entity.id <$> entities ∧
       Triple.object t ∈ Entity.id <$> entities).
Proof.
  intros HN.
  destruct (extract_relations_spec entities entity_map HN)
    as (ts & Hok & Hlen & _).
  destruct (extract_relations_inv _ _ _ _ Hok)
    as [[? _]|(_ & _ & _ & _ & Hi)]; [lia|].
  eexists _, ts. split; [exact Hok|]. split; [done|]. split.
  - intros i Hlt. apply Hi. lia.
  - intros t [i Hti]%list_elem_of_lookup.
    destruct (Hi i) as (e1 & e2 & r & He1 & He2 & _ & Ht).
    { by eapply lookup_lt_Some. }
    rewrite Hti in Ht. injection Ht as ->. simpl.
    split; apply list_elem_of_fmap; eauto using list_elem_of_lookup_2.
Qed.

(** C2: on N >= 2 entities the relations returned are the first
    min(N-1, 4) of the four relation types; for N = 2 that is
    ["relates_to"]. *)
Theorem relations_prefix (entities : list Entity.t) entity_map :
  2 ≤ length entities →
  ∃ rels ts,
    extract_relations entities entity_map = Ok (rels, ts) ∧
    rels `prefix_of` lit <$> ["relates_to"; "part_of"; "associated_with";
                              "belongs_to"]%string ∧
    length rels = min (length entities - 1) 4 ∧
    (length entities = 2 → rels = [lit "relates_to"]).
Proof.
  intros HN.
  destruct (extract_relations_spec entities entity_map HN)
    as (ts & Hok & _).
  eexists _, ts. split; [exact Hok|]. split; [|split].
  - apply prefix_take.
  - rewrite length_take, length_relation_types. lia.
  - by intros ->.
Qed.

(** C3: with fewer than two entities, and so for every text with fewer
    than two capitalized-word tokens, the relations and the triples are
    empty. *)
Theorem few_entities_empty unicode_alnum set_iter :
  (∀ words, NoDup (set_iter words)) →
  (∀ words w, w ∈ set_iter words ↔ w ∈ words) →
  (∀ entities entity_map,
     length entities < 2 →
     extract_relations entities entity_map = Ok ([], [])) ∧
  (∀ text,
     length (Regex.findall unicode_alnum text) < 2 →
     let '(entities, entity_map) :=
       extract_entities unicode_alnum set_iter text in
     length entities < 2 ∧
     extract_relations entities entity_map = Ok ([], [])).
Proof.
  intros Hnd Hel.
  assert (∀ entities entity_map,
            length entities < 2 →
            extract_relations entities entity_map = Ok ([], [])) as Hfew.
  { intros entities entity_map Hlt. unfold extract_relations.
    by destruct (decide (length entities < 2)). }
  split; [exact Hfew|].
  intros text Htok.
  pose proof (extract_entities_length unicode_alnum set_iter text) as Hlen.
  pose proof (set_iter_length set_iter Hnd Hel
                (Regex.findall unicode_alnum text)) as Hle.
  destruct (extract_entities unicode_alnum set_iter text)
    as [entities entity_map]. simpl in Hlen.
  split; [lia | apply Hfew; lia].
Qed.

(** C4: on exactly two entities there is one relation and one triple,
    from the first entity to the second. *)
Theorem two_entities (entities : list Entity.t) entity_map :
  length entities = 2 →
  ∃ e1 e2 r,
    entities = [e1; e2] ∧
    extract_relations entities entity_map
    = Ok ([r], [Triple.mk (Entity.id e1) r (Entity.id e2)]).
Proof.
  intros HN.
  destruct entities as [|e1 [|e2 [|]]]; try discriminate.
  exists e1, e2, (lit "relates_to"). split; reflexivity.
Qed.

(** C9: when the entity ids are pairwise distinct, no triple has its
    subject equal to its object. *)
Theorem subject_differs_from_object
    (entities : list Entity.t) entity_map rels ts :
  NoDup (Entity.id <$> entities) →
  extract_relations entities entity_map = Ok (rels, ts) →
  ∀ t, t ∈ ts → Triple.subject t ≠ Triple.object t.
Proof.
  intros Hnd Hrun t [i Hti]%list_elem_of_lookup.
  destruct (extract_relations_inv _ _ _ _ Hrun)
    as [(_ & _ & ->)|(HN & _ & _ & Hlen & Hi)]; [done|].
  pose proof (lookup_lt_Some _ _ _ Hti) as Hlt.
  destruct (Hi i Hlt) as (e1 & e2 & r & He1 & He2 & _ & Ht).
  rewrite Hti in Ht. injection Ht as ->. simpl. intros Heq.
  rewrite Nat.mod_small in He2 by lia.
  assert (i = i + 1); [|lia].
  eapply NoDup_lookup; [exact Hnd | |];
    rewrite list_lookup_fmap; [by rewrite He1 | by rewrite He2, Heq].
Qed.

(** C10: the predicate of every triple is one of the relations that are
    returned. *)
Theorem predicate_in_relations
    (entities : list Entity.t) entity_map rels ts :
  extract_relations entities entity_map = Ok (rels, ts) →
  ∀ t, t ∈ ts → Triple.predicate t ∈ rels.
Proof.
  intros Hrun t [i Hti]%list_elem_of_lookup.
  destruct (extract_relations_inv _ _ _ _ Hrun)
    as [(_ & _ & ->)|(_ & _ & _ & _ & Hi)]; [done|].
  destruct (Hi i) as (e1 & e2 & r & _ & _ & Hr & Ht).
  { by eapply lookup_lt_Some. }
  rewrite Hti in Ht. injection Ht as ->. simpl.
  by eapply list_elem_of_lookup_2.
Qed.

(** ** Entities *)

Lemma lit_inj s1 s2 : lit s1 = lit s2 → s1 = s2.
Proof.
  unfold lit. intros H.
  assert (String.list_ascii_of_string s1 = String.list_ascii_of_string s2)
    as Hl.
  { revert H. generalize (String.list_ascii_of_string s1)
                         (String.list_ascii_of_string s2).
    induction l as [|a l IH]; intros [|b k]; simpl; try done.
    intros [= Hab Hlk]. f_equal; [|by apply IH].
    by rewrite <- (ascii_N_embedding a), <- (ascii_N_embedding b), Hab. }
  by rewrite <- (String.string_of_list_ascii_of_string s1),
             <- (String.string_of_list_ascii_of_string s2), Hl.
Qed.

Lemma entity_id_inj i j :
  lit "e" ++ str_of_int (i + 1) = lit "e" ++ str_of_int (j + 1) → i = j.
Proof.
  intros H%app_inv_head. unfold str_of_int in H.
  apply lit_inj, (inj pretty) in H. lia.
Qed.

Lemma type_of_day w : w ∈ days → entity_type w = lit "Day".
Proof.
  unfold days. simpl. rewrite !elem_of_cons, elem_of_nil.
  intros H. repeat (destruct H as [->|H]; [by vm_compute|]). done.
Qed.

Lemma type_of_month w : w ∈ months → entity_type w = lit "Month".
Proof.
  unfold months. simpl. rewrite !elem_of_cons, elem_of_nil.
  intros H. repeat (destruct H as [->|H]; [by vm_compute|]). done.
Qed.

Lemma type_of_city w : w ∈ cities → entity_type w = lit "City".
Proof.
  unfold cities. simpl. rewrite !elem_of_cons, elem_of_nil.
  intros H. repeat (destruct H as [->|H]; [by vm_compute|]). done.
Qed.

Lemma type_of_country w : w ∈ countries → entity_type w = lit "Country".
Proof.
  unfold countries. simpl. rewrite !elem_of_cons, elem_of_nil.
  intros H. repeat (destruct H as [->|H]; [by vm_compute|]). done.
Qed.

Lemma type_of_other w :
  w ∉ days → w ∉ months → w ∉ cities → w ∉ countries →
  entity_type w = lit "Concept".
Proof.
  intros. unfold entity_type. by rewrite !bool_decide_eq_false_2.
Qed.

(** C5: the type of an entity is a function of its label alone, given by
    the four lookup lists: "Day" for a day, "Month" for a month, "City"
    for a city, "Country" for a country and "Concept" for any other
    label; so "Monday" is a "Day" and "Berlin" a "City". *)
Theorem type_from_label unicode_alnum set_iter text e :
  e ∈ (extract_entities unicode_alnum set_iter text).1 →
  Entity.type e = entity_type (Entity.label e) ∧
  (Entity.label e ∈ days → Entity.type e = lit "Day") ∧
  (Entity.label e ∈ months → Entity.type e = lit "Month") ∧
  (Entity.label e ∈ cities → Entity.type e = lit "City") ∧
  (Entity.label e ∈ countries → Entity.type e = lit "Country") ∧
  (Entity.label e ∉ days → Entity.label e ∉ months →
   Entity.label e ∉ cities → Entity.label e ∉ countries →
   Entity.type e = lit "Concept") ∧
  (Entity.label e = lit "Monday" → Entity.type e = lit "Day") ∧
  (Entity.label e = lit "Berlin" → Entity.type e = lit "City").
Proof.
  intros [i Hi]%list_elem_of_lookup.
  apply extract_entities_lookup in Hi as (w & _ & ->). simpl.
  split; [done|].
  repeat split;
    auto using type_of_day, type_of_month, type_of_city, type_of_country,
               type_of_other.
  - by intros ->.
  - by intros ->.
Qed.

(** C6: the labels of the entities are the capitalized-word tokens of the
    text, each exactly once, in the order in which the set is iterated;
    the entity at (0-based) position i has id "e" followed by i+1; the
    ids are pairwise distinct. *)
Theorem entities_labels_and_ids unicode_alnum set_iter text :
  (∀ words, NoDup (set_iter words)) →
  (∀ words w, w ∈ set_iter words ↔ w ∈ words) →
  let entities := (extract_entities unicode_alnum set_iter text).1 in
  Entity.label <$> entities = set_iter (Regex.findall unicode_alnum text) ∧
  NoDup (Entity.label <$> entities) ∧
  (∀ w, w ∈ Entity.label <$> entities ↔
        w ∈ Regex.findall unicode_alnum text) ∧
  (∀ i e, entities !! i = Some e →
          Entity.id e = lit "e" ++ str_of_int (i + 1)) ∧
  NoDup (Entity.id <$> entities).
Proof.
  intros Hnd Hel entities. subst entities.
  rewrite extract_entities_labels. repeat split.
  - apply Hnd.
  - apply Hel.
  - apply Hel.
  - intros i e (w & _ & ->)%extract_entities_lookup. done.
  - apply NoDup_alt. intros i j x.
    rewrite !list_lookup_fmap.
    destruct (_ !! i) as [ei|] eqn:Hi; [|done].
    destruct (_ !! j) as [ej|] eqn:Hj; [|done].
    apply extract_entities_lookup in Hi as (wi & _ & ->).
    apply extract_entities_lookup in Hj as (wj & _ & ->).
    simpl. intros [= <-] [= H]. symmetry. apply entity_id_inj. by f_equal.
Qed.

(** C7: [extract_entities] and [extract_relations] return on every text
    and no indexing or division raises; a text without capitalized-word
    tokens, the empty text among them, gives no entities. *)
Theorem never_raises unicode_alnum set_iter text :
  (∀ words w, w ∈ set_iter words ↔ w ∈ words) →
  (∀ (entities : list Entity.t) entity_map,
     ∃ rels ts, extract_relations entities entity_map = Ok (rels, ts)) ∧
  (∃ entities entity_map rels ts,
     extract_entities unicode_alnum set_iter text = (entities, entity_map) ∧
     extract_relations entities entity_map = Ok (rels, ts) ∧
     (Regex.findall unicode_alnum text = [] →
      entities = [] ∧ rels = [] ∧ ts = [])) ∧
  extract_entities unicode_alnum set_iter [] = ([], ∅).
Proof.
  intros Hel.
  assert (∀ (entities : list Entity.t) entity_map,
     ∃ rels ts, extract_relations entities entity_map = Ok (rels, ts))
    as Htotal.
  { intros entities entity_map.
    destruct (decide (length entities < 2)) as [Hlt|Hge].
    - exists [], []. unfold extract_relations.
      by destruct (decide (length entities < 2)).
    - destruct (extract_relations_spec entities entity_map) as (ts & Hok & _);
        [lia | eauto]. }
  assert (set_iter [] = []) as Hnil.
  { apply elem_of_nil_inv. intros w. rewrite Hel. apply not_elem_of_nil. }
  split; [exact Htotal|]. split.
  - pose proof (extract_entities_fst unicode_alnum set_iter text) as Hfst.
    destruct (extract_entities unicode_alnum set_iter text)
      as [entities entity_map]. simpl in Hfst.
    destruct (Htotal entities entity_map) as (rels & ts & Hok).
    exists entities, entity_map, rels, ts.
    split; [done|]. split; [done|].
    intros Hno. rewrite Hno, Hnil in Hfst. simpl in Hfst. subst entities.
    by injection Hok as <- <-.
  - unfold extract_entities, Regex.findall. simpl. by rewrite Hnil.
Qed.

(** ** The JSON text of a fragment *)

(** *** Surrogates and hexadecimal digits *)

Lemma lor_shiftl_add (a d k : N) :
  (d < 2 ^ k)%N → N.lor (N.shiftl a k) d = (a * 2 ^ k + d)%N.
Proof.
  intros Hd.
  assert (N.land (N.shiftl a k) d = 0%N) as Hdisjoint.
  { apply N.bits_inj_iff. intros i.
    rewrite N.land_spec, N.bits_0.
    destruct (N.lt_ge_cases i k) as [Hlt|Hge].
    - by rewrite N.shiftl_spec_low.
    - rewrite <- (N.mod_small d (2 ^ k)) by done.
      rewrite N.mod_pow2_bits_high by done. apply andb_false_r. }
  rewrite <- N.lxor_lor, <- N.add_nocarry_lxor by done.
  by rewrite N.shiftl_mul_pow2.
Qed.

Lemma high_half (n : N) :
  (n < 0x100000)%N →
  N.lor 0xd800 (N.land (N.shiftr n 10) 0x3ff) = (0xd800 + n / 1024)%N.
Proof.
  intros Hn.
  change 0x3ff%N with (N.ones 10). rewrite N.land_ones, N.shiftr_div_pow2.
  change (2 ^ 10)%N with 1024%N.
  assert (n / 1024 < 1024)%N as Hq by (apply N.Div0.div_lt_upper_bound; lia).
  rewrite N.mod_small by done.
  change 0xd800%N with (N.shiftl 54 10) at 1.
  rewrite lor_shiftl_add by done. reflexivity.
Qed.

Lemma low_half (n : N) :
  N.lor 0xdc00 (N.land n 0x3ff) = (0xdc00 + n mod 1024)%N.
Proof.
  change 0x3ff%N with (N.ones 10). rewrite N.land_ones.
  change (2 ^ 10)%N with 1024%N.
  change 0xdc00%N with (N.shiftl 55 10) at 1.
  rewrite lor_shiftl_add by (apply N.mod_upper_bound; lia). reflexivity.
Qed.

Lemma join_halves (n : N) :
  (n < 0x100000)%N →
  Json.join_surrogates (0xd800 + n / 1024) (0xdc00 + n mod 1024)
  = (0x10000 + n)%N.
Proof.
  intros Hn. unfold Json.join_surrogates.
  pose proof (N.div_mod n 1024) as Hdm.
  pose proof (N.mod_upper_bound n 1024) as Hr.
  set (q := (n / 1024)%N) in *. set (r := (n mod 1024)%N) in *.
  clearbody q r.
  replace (0xd800 + q - 0xd800)%N with q by lia.
  replace (0xdc00 + r - 0xdc00)%N with r by lia.
  rewrite lor_shiftl_add by (change (2 ^ 10)%N with 1024%N; lia).
  change (2 ^ 10)%N with 1024%N. lia.
Qed.

Lemma hex_value_digit (d : N) :
  (d < 16)%N → Json.hex_value (Json.hex_digit d) = Some d.
Proof.
  intros Hd.
  assert (d ∈ [0; 1; 2; 3; 4; 5; 6; 7; 8; 9; 10; 11; 12; 13; 14; 15]%N)
    as Hcases.
  { rewrite !elem_of_cons. lia. }
  rewrite !elem_of_cons, elem_of_nil in Hcases.
  repeat (destruct Hcases as [->|Hcases]; [reflexivity|]). done.
Qed.

Lemma decode_format_04x (n : N) (t : pystr) :
  (n < 0x10000)%N →
  ∃ h1 h2 h3 h4,
    Json.format_04x n ++ t = h1 :: h2 :: h3 :: h4 :: t ∧
    Json.decode_uXXXX h1 h2 h3 h4 = Some n.
Proof.
  intros Hn. eexists _, _, _, _. split; [reflexivity|].
  unfold Json.decode_uXXXX.
  rewrite !hex_value_digit; try (apply N.mod_upper_bound; lia).
  - simpl. f_equal.
    pose proof (N.div_mod n 16). pose proof (N.div_mod (n / 16) 16).
    pose proof (N.div_mod (n / 256) 16).
    assert (n / 4096 < 16)%N by (apply N.Div0.div_lt_upper_bound; lia).
    replace (n / 256)%N with (n / 16 / 16)%N in *
      by (by rewrite N.Div0.div_div).
    replace (n / 4096)%N with (n / 16 / 16 / 16)%N in *
      by (by rewrite !N.Div0.div_div).
    set (q1 := (n / 16)%N) in *. set (q2 := (q1 / 16)%N) in *.
    set (q3 := (q2 / 16)%N) in *.
    set (r0 := (n mod 16)%N) in *. set (r1 := (q1 mod 16)%N) in *.
    set (r2 := (q2 mod 16)%N) in *.
    clearbody q3 r2. clearbody q2 r1. clearbody q1 r0. lia.
  - apply N.Div0.div_lt_upper_bound. lia.
Qed.

(** *** Strings *)

Arguments Json.decode_uXXXX : simpl never.

Ltac nbool :=
  repeat match goal with
    | |- context [(?a =? ?b)%N] => destruct (N.eqb_spec a b); try lia
    | |- context [(?a <=? ?b)%N] => destruct (N.leb_spec a b); try lia
    | |- context [(?a <? ?b)%N] => destruct (N.ltb_spec a b); try lia
    end.

Lemma scanstring_plain (c : N) (t : pystr) :
  c ≠ 34%N → c ≠ 92%N → (31 < c)%N →
  Json.scanstring (c :: t) = Json.prepend c (Json.scanstring t).
Proof. intros. simpl. by nbool. Qed.

Lemma scanstring_unfold_u (h1 h2 h3 h4 : N) (s3 : pystr) :
  Json.scanstring (92%N :: 117%N :: h1 :: h2 :: h3 :: h4 :: s3)
  = match Json.decode_uXXXX h1 h2 h3 h4 with
    | None => None
    | Some uni =>
        let single := Json.prepend uni (Json.scanstring s3) in
        if is_high_surrogate uni then
          match s3 with
          | b :: u :: g1 :: g2 :: g3 :: g4 :: s4 =>
              if ((b =? 92) && (u =? 117))%N then
                match Json.decode_uXXXX g1 g2 g3 g4 with
                | None => None
                | Some uni2 =>
                    if is_low_surrogate uni2
                    then Json.prepend (Json.join_surrogates uni uni2)
                                      (Json.scanstring s4)
                    else single
                end
              else single
          | _ => single
          end
        else single
    end.
Proof. reflexivity. Qed.

Lemma scanstring_u (n : N) (t : pystr) :
  (n < 0x10000)%N →
  (is_high_surrogate n = true → lookahead_low t = false) →
  Json.scanstring (92%N :: 117%N :: Json.format_04x n ++ t)
  = Json.prepend n (Json.scanstring t).
Proof.
  intros Hn Hlook.
  destruct (decode_format_04x n t Hn) as (h1 & h2 & h3 & h4 & -> & Hdec).
  rewrite scanstring_unfold_u, Hdec. cbv zeta.
  destruct (is_high_surrogate n); [|done].
  specialize (Hlook eq_refl).
  destruct t as [|b [|u [|g1 [|g2 [|g3 [|g4 s4]]]]]]; try done.
  unfold lookahead_low in Hlook.
  destruct (b =? 92)%N, (u =? 117)%N; simpl in *; try done.
  destruct (Json.decode_uXXXX g1 g2 g3 g4); [|done]. by rewrite Hlook.
Qed.

Lemma scanstring_pair (n : N) (t : pystr) :
  (n < 0x100000)%N →
  Json.scanstring
    ((92%N :: 117%N :: Json.format_04x (0xd800 + n / 1024))
     ++ (92%N :: 117%N :: Json.format_04x (0xdc00 + n mod 1024)) ++ t)
  = Json.prepend (0x10000 + n) (Json.scanstring t).
Proof.
  intros Hn.
  pose proof (N.mod_upper_bound n 1024) as Hr.
  assert (n / 1024 < 1024)%N as Hq by (apply N.Div0.div_lt_upper_bound; lia).
  rewrite <- join_halves by done.
  set (q := (n / 1024)%N) in *. set (r := (n mod 1024)%N) in *.
  clearbody q r.
  destruct (decode_format_04x (0xdc00 + r) t)
    as (g1 & g2 & g3 & g4 & Hg & Hdec2); [lia|].
  rewrite <- !app_comm_cons, Hg.
  destruct (decode_format_04x (0xd800 + q)
              (92%N :: 117%N :: g1 :: g2 :: g3 :: g4 :: t))
    as (h1 & h2 & h3 & h4 & -> & Hdec1); [lia|].
  rewrite scanstring_unfold_u, Hdec1. cbv zeta.
  assert (is_high_surrogate (0xd800 + q) = true) as ->.
  { unfold is_high_surrogate. by nbool. }
  simpl. rewrite Hdec2.
  assert (is_low_surrogate (0xdc00 + r) = true) as ->.
  { unfold is_low_surrogate. by nbool. }
  done.
Qed.

Lemma replace_astral (c : N) :
  (0x10000 ≤ c < 0x110000)%N →
  Json.replace c
  = (92%N :: 117%N :: Json.format_04x (0xd800 + (c - 0x10000) / 1024))
    ++ (92%N :: 117%N :: Json.format_04x (0xdc00 + (c - 0x10000) mod 1024)).
Proof.
  intros Hc. unfold Json.replace.
  assert (Json.ESCAPE_DCT c = None) as ->.
  { unfold Json.ESCAPE_DCT. by nbool. }
  destruct (N.ltb_spec c 0x10000); [lia|].
  cbv zeta. by rewrite high_half, low_half by lia.
Qed.

Lemma scanstring_escape_char (c : N) (t : pystr) :
  (c < 0x110000)%N →
  (is_high_surrogate c = true → lookahead_low t = false) →
  Json.scanstring (Json.escape_char c ++ t)
  = Json.prepend c (Json.scanstring t).
Proof.
  intros Hc Hlook. unfold Json.escape_char.
  destruct (Json.ESCAPE_ASCII c) eqn:He.
  - destruct (Json.ESCAPE_DCT c) as [r|] eqn:Hd.
    + unfold Json.replace. rewrite Hd. unfold Json.ESCAPE_DCT in Hd.
      repeat match type of Hd with
             | (if (c =? ?k)%N then _ else _) = _ =>
                 destruct (N.eqb_spec c k);
                 [subst c; injection Hd as <-; reflexivity|]
             end.
      done.
    + destruct (N.ltb_spec c 0x10000) as [Hlt|Hge].
      * unfold Json.replace. rewrite Hd.
        destruct (N.ltb_spec c 0x10000); [|lia].
        by apply scanstring_u.
      * rewrite replace_astral by lia. rewrite <- app_assoc.
        rewrite scanstring_pair by lia. do 2 f_equal. lia.
  - unfold Json.ESCAPE_ASCII in He.
    apply scanstring_plain; revert He; nbool; done.
Qed.

Lemma lookahead_escape_char (c : N) (t : pystr) :
  (c < 0x110000)%N → is_low_surrogate c = false →
  lookahead_low (Json.escape_char c ++ t) = false.
Proof.
  intros Hc Hlow. unfold Json.escape_char.
  destruct (Json.ESCAPE_ASCII c) eqn:He.
  - destruct (Json.ESCAPE_DCT c) as [r|] eqn:Hd.
    + unfold Json.replace. rewrite Hd. unfold Json.ESCAPE_DCT in Hd.
      repeat match type of Hd with
             | (if (c =? ?k)%N then _ else _) = _ =>
                 destruct (N.eqb_spec c k);
                 [subst c; injection Hd as <-; reflexivity|]
             end.
      done.
    + destruct (N.ltb_spec c 0x10000) as [Hlt|Hge].
      * unfold Json.replace. rewrite Hd.
        destruct (N.ltb_spec c 0x10000); [|lia].
        destruct (decode_format_04x c t Hlt)
          as (h1 & h2 & h3 & h4 & Heq & Hdec).
        rewrite <- !app_comm_cons, Heq. simpl. by rewrite Hdec.
      * rewrite replace_astral by lia.
        assert ((c - 0x10000) / 1024 < 1024)%N as Hq
          by (apply N.Div0.div_lt_upper_bound; lia).
        set (q := ((c - 0x10000) / 1024)%N) in *. clearbody q.
        rewrite <- app_assoc.
        destruct (decode_format_04x (0xd800 + q)
                    (92%N :: 117%N
                     :: Json.format_04x (0xdc00 + (c - 0x10000) mod 1024)
                     ++ t))
          as (h1 & h2 & h3 & h4 & Heq & Hdec); [lia|].
        rewrite <- !app_comm_cons, Heq. simpl. rewrite Hdec.
        unfold is_low_surrogate. by nbool.
  - unfold Json.ESCAPE_ASCII in He. simpl.
    destruct (N.eqb_spec c 92); [|done].
    subst c. discriminate He.
Qed.

Lemma lookahead_escape (s rest : pystr) :
  str_ok s = true →
  from_option is_low_surrogate false (head s) = false →
  lookahead_low (Json.escape s ++ 34%N :: rest) = false.
Proof.
  destruct s as [|c s]; [done|].
  simpl. intros [[Hc _]%andb_prop _]%andb_prop Hlow.
  unfold Json.escape. rewrite fmap_cons. simpl. rewrite <- app_assoc.
  apply lookahead_escape_char; [|done]. by apply N.ltb_lt.
Qed.

Lemma scanstring_escape (s rest : pystr) :
  str_ok s = true →
  Json.scanstring (Json.escape s ++ 34%N :: rest) = Some (s, rest).
Proof.
  induction s as [|c s IH]; [done|].
  intros Hok. pose proof Hok as Hok'. simpl in Hok'.
  apply andb_prop in Hok' as [[Hc Hpair]%andb_prop Hs].
  unfold Json.escape. rewrite fmap_cons. simpl. rewrite <- app_assoc.
  fold (Json.escape s).
  rewrite scanstring_escape_char.
  - by rewrite IH.
  - by apply N.ltb_lt.
  - intros Hhigh. rewrite Hhigh in Hpair. simpl in Hpair.
    apply lookahead_escape; [done|]. by apply negb_true_iff.
Qed.

(** *** Lists and dicts *)

Lemma pyobj_induction (P : pyobj → Prop) :
  (∀ s, P (PStr s)) →
  (∀ l, Forall P l → P (PList l)) →
  (∀ d, Forall (λ kv, P kv.2) d → P (PDict d)) →
  ∀ o, P o.
Proof.
  intros Hs Hl Hd. fix IH 1. intros [s|l|d].
  - apply Hs.
  - apply Hl. induction l as [|x l IHl]; constructor; [apply IH | apply IHl].
  - apply Hd.
    induction d as [|[k v] d IHd]; constructor; [apply IH | apply IHd].
Qed.

Lemma skip_ws_spaces (n : nat) (t : pystr) :
  Json.skip_ws (replicate n 32%N ++ t) = Json.skip_ws t.
Proof. induction n as [|n IH]; [done|]. apply IH. Qed.

Lemma skip_ws_newline_indent (level : nat) (t : pystr) :
  Json.skip_ws (Json.newline_indent level ++ t) = Json.skip_ws t.
Proof.
  unfold Json.newline_indent. rewrite <- app_comm_cons.
  change (Json.skip_ws (10%N :: ?s)) with (Json.skip_ws s).
  apply skip_ws_spaces.
Qed.

Lemma skip_ws_stop (c : N) (t : pystr) :
  Json.WHITESPACE c = false → Json.skip_ws (c :: t) = c :: t.
Proof. intros H. simpl. by rewrite H. Qed.

(** The text of a value begins with a double quote, a bracket or a
    brace. *)
Lemma iterencode_head (level : nat) (o : pyobj) :
  ∃ c t, Json.iterencode level o = c :: t ∧ (c = 34 ∨ c = 91 ∨ c = 123)%N.
Proof.
  destruct o as [s|[|x l]|[|kv d]]; eexists _, _; (split; [reflexivity|]);
    auto.
Qed.

Lemma skip_ws_value (level : nat) (o : pyobj) (t : pystr) :
  Json.skip_ws (Json.iterencode level o ++ t) = Json.iterencode level o ++ t.
Proof.
  destruct (iterencode_head level o) as (c & t' & -> & Hc).
  rewrite <- app_comm_cons. apply skip_ws_stop.
  by destruct Hc as [->|[->| ->]].
Qed.

Lemma iterencode_items_cons {A} (enc : A → pystr) sep first x l :
  Json.iterencode_items enc sep first (x :: l)
  = (if first then [] else sep) ++ enc x ++ Json.iterencode_items enc sep false l.
Proof. reflexivity. Qed.

Lemma iterencode_items_nil {A} (enc : A → pystr) sep first :
  Json.iterencode_items enc sep first [] = [].
Proof. reflexivity. Qed.

Lemma item_separator_app (level : nat) (t : pystr) :
  Json.item_separator level ++ t = 44%N :: Json.newline_indent level ++ t.
Proof. reflexivity. Qed.

Lemma dict_set_fresh d k v : k ∉ d.*1 → dict_set d k v = d ++ [(k, v)].
Proof.
  induction d as [|[k' v'] d IH]; [done|].
  simpl. intros [Hne Hnin]%not_elem_of_cons.
  destruct (decide (k = k')); [done|]. by rewrite IH.
Qed.

Lemma dict_NoDup pairs : NoDup pairs.*1 → dict pairs = pairs.
Proof.
  unfold dict. intros Hnd.
  cut (∀ d, NoDup (d.*1 ++ pairs.*1) →
            foldl (λ d kv, dict_set d kv.1 kv.2) d pairs = d ++ pairs).
  { intros H. by apply (H []). }
  clear Hnd. induction pairs as [|[k v] pairs IH]; intros d Hnd.
  - simpl. by rewrite app_nil_r.
  - simpl. rewrite dict_set_fresh.
    + rewrite IH; [by rewrite <- app_assoc|].
      rewrite fmap_app. simpl. by rewrite <- app_assoc.
    + simpl in Hnd. apply NoDup_app in Hnd as (_ & Hdisj & _).
      intros Hin. apply (Hdisj k Hin). by left.
Qed.

Opaque Json.newline_indent Json.item_separator Json.iterencode
  Json.iterencode_items Json.skip_ws Json.scanstring Json.escape.

Lemma reads_back_str (s : pystr) : str_ok s = true → reads_back (PStr s).
Proof.
  intros Hok level fuel rest Hf.
  destruct fuel as [|fuel]; [simpl in Hf; lia|].
  change (Json.iterencode level (PStr s))
    with (34%N :: Json.escape s ++ [34%N]).
  rewrite <- app_comm_cons, <- app_assoc. simpl.
  by rewrite scanstring_escape.
Qed.

Lemma JSONArray_loop_items (level : nat) (rest : pystr) :
  ∀ l x fuel,
    reads_back x → Forall reads_back l →
    S (fuel_for x) + sum_list_with (λ x, S (fuel_for x)) l ≤ fuel →
    Json.JSONArray_loop fuel
      (Json.iterencode (S level) x
       ++ Json.iterencode_items (Json.iterencode (S level))
            (Json.item_separator (S level)) false l
       ++ Json.newline_indent level ++ 93%N :: rest)
    = Some (x :: l, rest).
Proof.
  induction l as [|y l IH]; intros x fuel Hx Hl Hf;
    (destruct fuel as [|fuel]; [lia|]); simpl in Hf.
  - simpl. rewrite Hx by lia. simpl.
    rewrite iterencode_items_nil, app_nil_l.
    by rewrite skip_ws_newline_indent, skip_ws_stop.
  - apply Forall_cons in Hl as [Hy Hl].
    rewrite iterencode_items_cons.
    simpl. rewrite Hx by lia. simpl.
    rewrite <- !app_assoc, item_separator_app, skip_ws_stop by done. simpl.
    rewrite skip_ws_newline_indent, skip_ws_value.
    rewrite IH by (done || lia). done.
Qed.

Lemma skip_ws_space (t : pystr) : Json.skip_ws (32%N :: t) = Json.skip_ws t.
Proof. reflexivity. Qed.

Lemma dict_item_text (level : nat) (k : pystr) (v : pyobj) (t : pystr) :
  iterencode_item level (k, v) ++ t
  = 34%N :: Json.escape k
    ++ 34%N :: 58%N :: 32%N :: Json.iterencode level v ++ t.
Proof.
  unfold iterencode_item, Json.encode_basestring_ascii, Json.key_separator.
  rewrite <- !app_comm_cons, <- !app_assoc. reflexivity.
Qed.

Opaque iterencode_item.

Lemma JSONObject_loop_items (level : nat) (rest : pystr) :
  ∀ d k v fuel,
    str_ok k = true → reads_back v →
    Forall (λ kv, str_ok kv.1 = true ∧ reads_back kv.2) d →
    S (fuel_for v)
    + sum_list_with (λ kv, let '(_, value) := kv in S (fuel_for value)) d
    ≤ fuel →
    Json.JSONObject_loop fuel
      (iterencode_item (S level) (k, v)
       ++ Json.iterencode_items (iterencode_item (S level))
            (Json.item_separator (S level)) false d
       ++ Json.newline_indent level ++ 125%N :: rest)
    = Some ((k, v) :: d, rest).
Proof.
  induction d as [|[k' v'] d IH]; intros k v fuel Hk Hv Hd Hf;
    (destruct fuel as [|fuel]; [lia|]); simpl in Hf;
    rewrite dict_item_text; simpl;
    rewrite scanstring_escape by done; simpl;
    rewrite skip_ws_stop by done; simpl;
    rewrite skip_ws_space, skip_ws_value, Hv by lia; simpl.
  - rewrite iterencode_items_nil, app_nil_l.
    by rewrite skip_ws_newline_indent, skip_ws_stop.
  - apply Forall_cons in Hd as [[Hk' Hv'] Hd]. simpl in Hk', Hv'.
    rewrite iterencode_items_cons.
    rewrite <- !app_assoc, item_separator_app, skip_ws_stop by done. simpl.
    rewrite skip_ws_newline_indent.
    rewrite (dict_item_text (S level) k' v'), skip_ws_stop by done.
    rewrite <- (dict_item_text (S level) k' v').
    rewrite IH by (done || lia). done.
Qed.

Lemma forallb_elem {A} (f : A → bool) (l : list A) :
  forallb f l = true → ∀ x, x ∈ l → f x = true.
Proof.
  rewrite forallb_forall. intros H x Hx. apply H. by apply list_elem_of_In.
Qed.

(** [scan_once] reads back the text of every well-formed value. *)
Lemma reads_back_ok (o : pyobj) : obj_ok o = true → reads_back o.
Proof.
  induction o as [s|l IHl|d IHd] using pyobj_induction.
  - apply reads_back_str.
  - simpl. intros Hok level fuel rest Hf.
    assert (Forall reads_back l) as Hl.
    { rewrite Forall_forall in IHl. apply Forall_forall.
      intros x Hx. apply IHl; [done|]. by apply (forallb_elem _ _ Hok). }
    clear IHl Hok.
    destruct fuel as [|fuel]; [simpl in Hf; lia|].
    destruct l as [|x l].
    + change (Json.iterencode level (PList [])) with [91; 93]%N. simpl.
      by rewrite skip_ws_stop.
    + apply Forall_cons in Hl as [Hx Hl].
      change (Json.iterencode level (PList (x :: l)))
        with (91%N :: Json.newline_indent (S level)
              ++ Json.iterencode_items (Json.iterencode (S level))
                   (Json.item_separator (S level)) true (x :: l)
              ++ Json.newline_indent level ++ [93%N]).
      simpl. rewrite <- !app_assoc, skip_ws_newline_indent.
      rewrite iterencode_items_cons, app_nil_l, <- !app_assoc.
      rewrite skip_ws_value.
      destruct (iterencode_head (S level) x) as (c & t & Heq & Hc).
      rewrite Heq, <- app_comm_cons.
      assert ((c =? 93)%N = false) as ->
        by (by destruct Hc as [->|[->| ->]]).
      rewrite app_comm_cons, <- Heq.
      simpl in Hf. change ([93%N] ++ rest) with (93%N :: rest).
      rewrite (JSONArray_loop_items level rest l x fuel) by (done || lia).
      done.
  - simpl. intros [Hok Hnd%bool_decide_eq_true]%andb_prop level fuel rest Hf.
    assert (Forall (λ kv, str_ok kv.1 = true ∧ reads_back kv.2) d) as Hd.
    { rewrite Forall_forall in IHd. apply Forall_forall.
      intros [k v] Hkv. specialize (IHd _ Hkv).
      apply (forallb_elem _ _ Hok) in Hkv as [? ?]%andb_prop.
      simpl in *. auto. }
    clear IHd Hok.
    destruct fuel as [|fuel]; [simpl in Hf; lia|].
    destruct d as [|[k v] d].
    + change (Json.iterencode level (PDict [])) with [123; 125]%N. simpl.
      by rewrite skip_ws_stop.
    + apply Forall_cons in Hd as [[Hk Hv] Hd]. simpl in Hk, Hv.
      change (Json.iterencode level (PDict ((k, v) :: d)))
        with (123%N :: Json.newline_indent (S level)
              ++ Json.iterencode_items (iterencode_item (S level))
                   (Json.item_separator (S level)) true ((k, v) :: d)
              ++ Json.newline_indent level ++ [125%N]).
      simpl. rewrite <- !app_assoc, skip_ws_newline_indent.
      rewrite iterencode_items_cons, app_nil_l, <- !app_assoc.
      change ([125%N] ++ rest) with (125%N :: rest).
      pose proof (JSONObject_loop_items level rest d k v fuel Hk Hv Hd)
        as Hloop.
      simpl in Hf. rewrite dict_item_text in *.
      rewrite skip_ws_stop by done. simpl.
      rewrite Hloop by lia. simpl. by rewrite dict_NoDup.
Qed.

Lemma iterencode_items_length {A} (enc : A → pystr) (f : A → nat) sep l :
  Forall (λ x, f x ≤ length (enc x)) l → 0 < length sep →
  ∀ first,
    sum_list_with (λ x, S (f x)) l
    ≤ length (Json.iterencode_items enc sep first l)
      + (if first then 1 else 0).
Proof.
  intros Hl Hsep. induction Hl as [|x l Hx Hl IH]; intros first.
  - rewrite iterencode_items_nil. simpl. lia.
  - rewrite iterencode_items_cons, !length_app. simpl.
    specialize (IH false). simpl in IH. destruct first; simpl; lia.
Qed.

Lemma fuel_for_length (o : pyobj) :
  ∀ level, fuel_for o ≤ length (Json.iterencode level o).
Proof.
  induction o as [s|l IHl|d IHd] using pyobj_induction; intros level.
  - change (Json.iterencode level (PStr s))
      with (34%N :: Json.escape s ++ [34%N]).
    simpl. lia.
  - destruct l as [|x l].
    { change (Json.iterencode level (PList [])) with [91; 93]%N.
      simpl. lia. }
    change (Json.iterencode level (PList (x :: l)))
      with (91%N :: Json.newline_indent (S level)
            ++ Json.iterencode_items (Json.iterencode (S level))
                 (Json.item_separator (S level)) true (x :: l)
            ++ Json.newline_indent level ++ [93%N]).
    pose proof (iterencode_items_length (Json.iterencode (S level)) fuel_for
                  (Json.item_separator (S level)) (x :: l)) as Hlen.
    specialize (Hlen (Forall_impl _ _ _ IHl (λ x H, H (S level)))).
    specialize (Hlen (Nat.lt_0_succ _) true).
    rewrite length_cons, !length_app. simpl in *. lia.
  - destruct d as [|[k v] d].
    { change (Json.iterencode level (PDict [])) with [123; 125]%N.
      simpl. lia. }
    change (Json.iterencode level (PDict ((k, v) :: d)))
      with (123%N :: Json.newline_indent (S level)
            ++ Json.iterencode_items (iterencode_item (S level))
                 (Json.item_separator (S level)) true ((k, v) :: d)
            ++ Json.newline_indent level ++ [125%N]).
    pose proof (iterencode_items_length (iterencode_item (S level))
                  (λ kv, fuel_for kv.2)
                  (Json.item_separator (S level)) ((k, v) :: d)) as Hlen.
    assert (Forall (λ kv, fuel_for kv.2
                          ≤ length (iterencode_item (S level) kv))
                   ((k, v) :: d)) as Hitems.
    { eapply Forall_impl; [exact IHd|]. intros [k' v'] H. simpl in *.
      rewrite <- (app_nil_r (iterencode_item _ _)), dict_item_text.
      specialize (H (S level)). rewrite length_cons, length_app. simpl.
      rewrite !length_app. lia. }
    specialize (Hlen Hitems (Nat.lt_0_succ _) true).
    rewrite length_cons, !length_app.
    assert (sum_list_with
              (λ kv : pystr * pyobj, let '(_, value) := kv in
                                     S (fuel_for value)) d
            = sum_list_with (λ kv, S (fuel_for kv.2)) d) as Hsum.
    { clear. induction d as [|[k v] d IH]; simpl; [done|]. by rewrite IH. }
    simpl in *. rewrite Hsum. lia.
Qed.

(** Writing a well-formed value and reading the text gives the value
    back. *)
Lemma load_dump (o : pyobj) :
  obj_ok o = true → Json.load (Json.dump o) = Some o.
Proof.
  intros Hok. unfold Json.load, Json.dump.
  pose proof (skip_ws_value 0 o []) as Hws. rewrite app_nil_r in Hws.
  rewrite Hws.
  pose proof (reads_back_ok o Hok 0 (S (length (Json.iterencode 0 o))) [])
    as Hread.
  rewrite app_nil_r in Hread. rewrite Hread; [done|].
  pose proof (fuel_for_length o 0). lia.
Qed.

(** *** The strings of a fragment *)

Lemma is_lower_ascii c : Regex.is_lower c = true → (c < 128)%N.
Proof. unfold Regex.is_lower. nbool; done. Qed.

Lemma is_upper_ascii c : Regex.is_upper c = true → (c < 128)%N.
Proof. unfold Regex.is_upper. nbool; done. Qed.

Lemma lower_star_b_ascii ua (s : pystr) :
  ∀ prev tok,
    Regex.lower_star_b ua prev s = Some tok → Forall (λ c, (c < 128)%N) tok.
Proof.
  induction s as [|c s IH]; intros prev tok; simpl.
  - destruct (Regex.at_boundary ua (Some prev) None); [|done].
    by intros [= <-].
  - destruct (Regex.is_lower c) eqn:Hc.
    + destruct (Regex.lower_star_b ua c s) as [tok'|] eqn:Hrec.
      * intros [= <-]. constructor; [by apply is_lower_ascii | eauto].
      * destruct (Regex.at_boundary ua (Some prev) (Some c)); [|done].
        by intros [= <-].
    + destruct (Regex.at_boundary ua (Some prev) (Some c)); [|done].
      by intros [= <-].
Qed.

Lemma match_here_ascii ua prev (s tok : pystr) :
  Regex.match_here ua prev s = Some tok → Forall (λ c, (c < 128)%N) tok.
Proof.
  unfold Regex.match_here.
  destruct (Regex.at_boundary ua prev (head s)); [|done].
  destruct s as [|c [|d s]]; try done.
  destruct (Regex.is_upper c) eqn:Hc; [|done].
  destruct (Regex.is_lower d) eqn:Hd; [|done]. simpl.
  destruct (Regex.lower_star_b ua d s) as [tok'|] eqn:Htok; [|done].
  simpl. intros [= <-].
  repeat constructor;
    eauto using is_upper_ascii, is_lower_ascii, lower_star_b_ascii.
Qed.

Lemma findall_ascii ua (text tok : pystr) :
  tok ∈ Regex.findall ua text → Forall (λ c, (c < 128)%N) tok.
Proof.
  unfold Regex.findall. generalize 0 (@None N).
  induction text as [|c s IH]; intros skip prev; simpl.
  - by intros ?%elem_of_nil.
  - destruct skip as [|k]; [|by apply IH].
    destruct (Regex.match_here ua prev (c :: s)) as [tok'|] eqn:Hm;
      [|by apply IH].
    intros [->|Hin]%elem_of_cons; [|by eapply IH].
    by eapply match_here_ascii.
Qed.

Lemma plain_str_ok (s : pystr) :
  Forall (λ c, (c < 0xd800)%N) s → str_ok s = true.
Proof.
  induction 1 as [|c s Hc Hs IH]; [done|]. simpl.
  rewrite IH, andb_true_r. unfold is_high_surrogate. by nbool.
Qed.

Lemma ascii_str_ok (s : pystr) :
  Forall (λ c, (c < 128)%N) s → str_ok s = true.
Proof.
  intros H. apply plain_str_ok. eapply Forall_impl; [exact H|].
  simpl. lia.
Qed.

Lemma lit_str_ok (s : string) : str_ok (lit s) = true.
Proof.
  apply plain_str_ok. unfold lit. apply Forall_fmap, Forall_forall.
  intros a _. simpl. pose proof (N_ascii_bounded a). lia.
Qed.

Lemma entity_type_str_ok (w : pystr) : str_ok (entity_type w) = true.
Proof. unfold entity_type. repeat case_bool_decide; apply lit_str_ok. Qed.

Lemma relation_types_str_ok (r : pystr) :
  r ∈ relation_types → str_ok r = true.
Proof.
  unfold relation_types. intros (s & -> & _)%list_elem_of_fmap.
  apply lit_str_ok.
Qed.

Lemma entity_str_ok ua set_iter text e :
  (∀ words w, w ∈ set_iter words ↔ w ∈ words) →
  e ∈ (extract_entities ua set_iter text).1 →
  str_ok (Entity.id e) = true ∧ str_ok (Entity.label e) = true
  ∧ str_ok (Entity.type e) = true.
Proof.
  intros Hel [i Hi]%list_elem_of_lookup.
  apply extract_entities_lookup in Hi as (w & Hw & ->). simpl.
  split; [|split].
  - apply lit_str_ok.
  - eapply ascii_str_ok, findall_ascii, Hel, list_elem_of_lookup_2, Hw.
  - apply entity_type_str_ok.
Qed.

(** The fields of the triples that [extract_relations] returns. *)
Lemma triples_fields (entities : list Entity.t) entity_map rels ts :
  extract_relations entities entity_map = Ok (rels, ts) →
  (∀ r, r ∈ rels → r ∈ relation_types) ∧
  ∀ t, t ∈ ts →
    (∃ e, e ∈ entities ∧ Triple.subject t = Entity.id e) ∧
    Triple.predicate t ∈ rels ∧
    (∃ e, e ∈ entities ∧ Triple.object t = Entity.id e).
Proof.
  intros Hrun.
  destruct (extract_relations_inv _ _ _ _ Hrun)
    as [(_ & -> & ->)|(_ & Hrels & _ & _ & Hi)].
  - split; intros ? H; by apply elem_of_nil in H.
  - split.
    + intros r Hr. rewrite Hrels in Hr.
      by eapply subseteq_take.
    + intros t [i Hti]%list_elem_of_lookup.
      destruct (Hi i) as (e1 & e2 & r & He1 & He2 & Hr & Ht).
      { by eapply lookup_lt_Some. }
      rewrite Hti in Ht. injection Ht as ->. simpl.
      split; [|split].
      * exists e1. split; [by eapply list_elem_of_lookup_2 | done].
      * by eapply list_elem_of_lookup_2.
      * exists e2. split; [by eapply list_elem_of_lookup_2 | done].
Qed.

Lemma forallb_fmap_intro {A B} (f : B → bool) (g : A → B) (l : list A) :
  (∀ x, x ∈ l → f (g x) = true) → forallb f (g <$> l) = true.
Proof.
  intros H. apply forallb_forall.
  intros y (x & -> & Hx)%list_elem_of_In%list_elem_of_fmap. by apply H.
Qed.

Lemma fragment_ok note_id (entities : list Entity.t) rels ts :
  str_ok note_id = true →
  (∀ e, e ∈ entities →
        str_ok (Entity.id e) = true ∧ str_ok (Entity.label e) = true
        ∧ str_ok (Entity.type e) = true) →
  (∀ r, r ∈ rels → str_ok r = true) →
  (∀ t, t ∈ ts →
        str_ok (Triple.subject t) = true ∧ str_ok (Triple.predicate t) = true
        ∧ str_ok (Triple.object t) = true) →
  obj_ok (fragment note_id entities rels ts) = true.
Proof.
  intros Hid Hent Hrel Htr.
  assert (forallb obj_ok (entity_dict <$> entities) = true) as H1.
  { apply forallb_fmap_intro. intros e (Ha & Hb & Hc)%Hent.
    unfold entity_dict. cbn [obj_ok forallb]. by rewrite Ha, Hb, Hc. }
  assert (forallb obj_ok (PStr <$> rels) = true) as H2.
  { apply forallb_fmap_intro. intros r Hr. by apply Hrel. }
  assert (forallb obj_ok (triple_dict <$> ts) = true) as H3.
  { apply forallb_fmap_intro. intros t (Ha & Hb & Hc)%Htr.
    unfold triple_dict. cbn [obj_ok forallb]. by rewrite Ha, Hb, Hc. }
  unfold fragment. cbn [obj_ok forallb]. by rewrite Hid, H1, H2, H3.
Qed.

Lemma basename_from_str_ok (p : pystr) :
  ∀ cur, str_ok cur = true → str_ok p = true →
         str_ok (basename_from cur p) = true.
Proof.
  induction p as [|c p IH]; intros cur Hcur Hp; [done|].
  simpl. pose proof Hp as Hp'. simpl in Hp'.
  apply andb_prop in Hp' as [_ Hp']. destruct (c =? 47)%N; by apply IH.
Qed.

Lemma split_head_str_ok (sep : N) (s : pystr) :
  str_ok s = true → str_ok (split_head sep s) = true.
Proof.
  induction s as [|c s IH]; [done|].
  simpl. intros [[Hc Hpair]%andb_prop Hs]%andb_prop.
  destruct (c =? sep)%N; [done|]. simpl.
  rewrite Hc, IH, andb_true_r by done. simpl.
  destruct (is_high_surrogate c); [|done]. simpl in *.
  destruct s as [|c' s]; [done|]. simpl in *.
  by destruct (c' =? sep)%N.
Qed.

(** The note id taken from a path is well formed when the path is. *)
Lemma note_id_str_ok (input : pystr) :
  str_ok input = true → str_ok (split_head 45 (basename input)) = true.
Proof.
  intros H. by apply split_head_str_ok, basename_from_str_ok.
Qed.

Lemma first_seen_NoDup words : NoDup (first_seen words).
Proof.
  unfold first_seen. rewrite reverse_Permutation. apply NoDup_remove_dups.
Qed.

Lemma first_seen_elem words w : w ∈ first_seen words ↔ w ∈ words.
Proof.
  unfold first_seen. by rewrite elem_of_reverse, elem_of_remove_dups,
    elem_of_reverse.
Qed.

(** The fragment made from a path and a text is written and read back
    unchanged whenever its note id has all code points in range and no
    high surrogate directly followed by a low surrogate (all other
    strings of a fragment are ASCII). *)
Lemma fragment_round_trip unicode_alnum set_iter input text :
  (∀ words w, w ∈ set_iter words ↔ w ∈ words) →
  str_ok (split_head 45 (basename input)) = true →
  ∃ entities entity_map rels ts,
    extract_entities unicode_alnum set_iter text = (entities, entity_map) ∧
    extract_relations entities entity_map = Ok (rels, ts) ∧
    let frag := fragment (split_head 45 (basename input)) entities rels ts in
    main_fragment unicode_alnum set_iter input text = Ok frag ∧
    Json.load (Json.dump frag) = Some frag.
Proof.
  intros Hel Hid. unfold main_fragment.
  pose proof (entity_str_ok unicode_alnum set_iter text) as Hent.
  destruct (extract_entities unicode_alnum set_iter text)
    as [entities entity_map]. simpl in Hent.
  assert (∃ rels ts, extract_relations entities entity_map = Ok (rels, ts))
    as (rels & ts & Hrun).
  { destruct (decide (length entities < 2)) as [Hlt|Hge].
    - exists [], []. unfold extract_relations.
      by destruct (decide (length entities < 2)).
    - destruct (extract_relations_spec entities entity_map) as (ts & Hok & _);
        [lia | eauto]. }
  exists entities, entity_map, rels, ts.
  split; [done|]. split; [done|]. rewrite Hrun. split; [done|].
  destruct (triples_fields _ _ _ _ Hrun) as [Hrels Hts].
  apply load_dump, fragment_ok; [done| | |].
  - intros e He. by apply Hent.
  - intros r Hr. by apply relation_types_str_ok, Hrels.
  - intros t Ht. destruct (Hts t Ht) as ((e1 & He1 & ->) & Hp & e2 & He2 & ->).
    split; [|split].
    + by apply Hent.
    + by apply relation_types_str_ok, Hrels.
    + by apply Hent.
Qed.

Lemma fs_encodable_str_ok (s : pystr) :
  forallb fs_encodable s = true → str_ok s = true.
Proof.
  induction s as [|c s IH]; [done|]. simpl.
  intros [Hc Hs]%andb_prop. rewrite IH, andb_true_r by done.
  revert Hc. unfold fs_encodable, is_high_surrogate. by nbool.
Qed.

(** A path with a surrogate that cannot be encoded is never opened:
    [main] exits before it makes a note id. *)
Lemma main_exits_on_unencodable_path unicode_alnum set_iter fs :
  main unicode_alnum set_iter fs [0xd800; 0xdc00]%N = ExitAtRead.
Proof. reflexivity. Qed.

(** C8: every fragment that [main] passes to [json.dump] is read back
    from the text written for it as the same structure, with the same
    values and, more than asked, the same order of fields. *)
Theorem dumped_fragment_round_trip
    unicode_alnum set_iter fs input (frag : pyobj) :
  (∀ words w, w ∈ set_iter words ↔ w ∈ words) →
  main unicode_alnum set_iter fs input = Dumps frag →
  Json.load (Json.dump frag) = Some frag.
Proof.
  intros Hel. unfold main, read_input.
  destruct (forallb fs_encodable input) eqn:Hpath; [|done].
  destruct (fs input) as [text|]; [|done].
  destruct (fragment_round_trip unicode_alnum set_iter input text Hel)
    as (entities & entity_map & rels & ts & _ & _ & Hmain & Hload).
  { by apply note_id_str_ok, fs_encodable_str_ok. }
  cbv zeta in Hmain, Hload. rewrite Hmain. by intros [= <-].
Qed.

(** ** The theorems at work on a sample text *)

Lemma sample_run :
  extract_relations sample_entities sample_entity_map
  = Ok (sample_relations, sample_triples).
Proof. by vm_compute. Qed.

Lemma triples_shape_witness :
  2 ≤ length sample_entities ∧
  ∃ rels ts,
    extract_relations sample_entities sample_entity_map = Ok (rels, ts) ∧
    length ts = min (length sample_entities - 1) 5 ∧
    (∀ i, i < min (length sample_entities - 1) 5 →
       ∃ e1 e2 r,
         sample_entities !! i = Some e1 ∧
         sample_entities !! ((i + 1) mod length sample_entities) = Some e2 ∧
         rels !! (i mod length rels) = Some r ∧
         ts !! i = Some (Triple.mk (Entity.id e1) r (Entity.id e2))) ∧
    (∀ t, t ∈ ts →
       Triple.subject t ∈ Entity.id <$> sample_entities ∧
       Triple.object t ∈ Entity.id <$> sample_entities).
Proof.
  assert (2 ≤ length sample_entities) as H by (vm_compute; lia).
  split; [exact H | exact (triples_shape _ _ H)].
Defined.

Lemma relations_prefix_witness :
  2 ≤ length sample_entities ∧
  ∃ rels ts,
    extract_relations sample_entities sample_entity_map = Ok (rels, ts) ∧
    rels `prefix_of` lit <$> ["relates_to"; "part_of"; "associated_with";
                              "belongs_to"]%string ∧
    length rels = min (length sample_entities - 1) 4 ∧
    (length sample_entities = 2 → rels = [lit "relates_to"]).
Proof.
  assert (2 ≤ length sample_entities) as H by (vm_compute; lia).
  split; [exact H | exact (relations_prefix _ _ H)].
Defined.

Lemma few_entities_empty_witness :
  length (Regex.findall no_unicode (lit "Paris is nice.")) < 2 ∧
  let '(entities, entity_map) :=
    extract_entities no_unicode first_seen (lit "Paris is nice.") in
  length entities < 2 ∧ extract_relations entities entity_map = Ok ([], []).
Proof.
  assert (length (Regex.findall no_unicode (lit "Paris is nice.")) < 2)
    as H by (vm_compute; lia).
  split; [exact H|].
  exact (proj2 (few_entities_empty no_unicode first_seen
                  first_seen_NoDup first_seen_elem) _ H).
Defined.

Lemma two_entities_witness :
  length short_entities = 2 ∧
  ∃ e1 e2 r,
    short_entities = [e1; e2] ∧
    extract_relations short_entities short_entity_map
    = Ok ([r], [Triple.mk (Entity.id e1) r (Entity.id e2)]).
Proof.
  assert (length short_entities = 2) as H by (by vm_compute).
  split; [exact H | exact (two_entities _ short_entity_map H)].
Defined.

Lemma type_from_label_witness :
  entity_of 0 (lit "Paris") ∈ sample_entities ∧
  Entity.type (entity_of 0 (lit "Paris")) = lit "City".
Proof.
  assert (entity_of 0 (lit "Paris") ∈ sample_entities) as H.
  { apply (list_elem_of_lookup_2 _ 0). by vm_compute. }
  split; [exact H|].
  destruct (type_from_label no_unicode first_seen sample_text _ H)
    as (_ & _ & _ & Hcity & _).
  apply Hcity. apply (list_elem_of_lookup_2 _ 0). by vm_compute.
Defined.

Lemma entities_labels_and_ids_witness :
  Entity.label <$> sample_entities
  = first_seen (Regex.findall no_unicode sample_text) ∧
  NoDup (Entity.id <$> sample_entities).
Proof.
  destruct (entities_labels_and_ids no_unicode first_seen sample_text
              first_seen_NoDup first_seen_elem)
    as (Hlabels & _ & _ & _ & Hids).
  split; [exact Hlabels | exact Hids].
Defined.

Lemma never_raises_witness :
  ∃ entities entity_map rels ts,
    extract_entities no_unicode first_seen sample_text
    = (entities, entity_map) ∧
    extract_relations entities entity_map = Ok (rels, ts).
Proof.
  destruct (never_raises no_unicode first_seen sample_text first_seen_elem)
    as (_ & (entities & entity_map & rels & ts & He & Hr & _) & _).
  exists entities, entity_map, rels, ts. split; [exact He | exact Hr].
Defined.

Lemma dumped_fragment_round_trip_witness :
  main no_unicode first_seen sample_fs sample_input = Dumps sample_fragment ∧
  Json.load (Json.dump sample_fragment) = Some sample_fragment.
Proof.
  assert (main no_unicode first_seen sample_fs sample_input
          = Dumps sample_fragment) as H by (by vm_compute).
  split; [exact H|].
  exact (dumped_fragment_round_trip no_unicode first_seen sample_fs
           sample_input sample_fragment first_seen_elem H).
Defined.

Lemma subject_differs_from_object_witness :
  NoDup (Entity.id <$> sample_entities) ∧
  extract_relations sample_entities sample_entity_map
  = Ok (sample_relations, sample_triples) ∧
  ∀ t, t ∈ sample_triples → Triple.subject t ≠ Triple.object t.
Proof.
  assert (NoDup (Entity.id <$> sample_entities)) as H.
  { apply (bool_decide_unpack _). by vm_compute. }
  split; [exact H|]. split; [exact sample_run|].
  exact (subject_differs_from_object _ _ _ _ H sample_run).
Defined.

Lemma predicate_in_relations_witness :
  extract_relations sample_entities sample_entity_map
  = Ok (sample_relations, sample_triples) ∧
  ∀ t, t ∈ sample_triples → Triple.predicate t ∈ sample_relations.
Proof.
  split; [exact sample_run|].
  exact (predicate_in_relations _ _ _ _ sample_run).
Defined.

(** * Further properties of the code *)

(** ** What the regular expression matches *)

Lemma is_lower_word ua c : Regex.is_lower c = true → Regex.is_word ua c = true.
Proof.
  intros H. pose proof (is_lower_ascii c H) as Hc. unfold Regex.is_word.
  destruct (N.ltb_spec c 128); [|lia]. rewrite H.
  by rewrite orb_true_r.
Qed.

Lemma is_upper_word ua c : Regex.is_upper c = true → Regex.is_word ua c = true.
Proof.
  intros H. pose proof (is_upper_ascii c H) as Hc. unfold Regex.is_word.
  destruct (N.ltb_spec c 128); [|lia]. by rewrite H.
Qed.

(** After a word character, [[a-z]*\b] matches the whole run of small
    letters and nothing shorter, and only when no word character follows
    the run. *)
Lemma lower_star_b_iff ua (s : pystr) :
  ∀ prev tok,
    Regex.is_word ua prev = true →
    Regex.lower_star_b ua prev s = Some tok ↔
    ∃ rest, s = tok ++ rest ∧ forallb Regex.is_lower tok = true ∧
            from_option (Regex.is_word ua) false (head rest) = false.
Proof.
  induction s as [|c s IH]; intros prev tok Hprev.
  - simpl. unfold Regex.at_boundary. simpl. rewrite Hprev. simpl. split.
    + intros [= <-]. by exists [].
    + intros (rest & Heq & _). symmetry in Heq.
      apply app_eq_nil in Heq as [-> _]. done.
  - simpl. unfold Regex.at_boundary. simpl. rewrite Hprev. simpl.
    destruct (Regex.is_lower c) eqn:Hc.
    + pose proof (is_lower_word ua c Hc) as Hw. rewrite Hw. simpl.
      destruct (Regex.lower_star_b ua c s) as [tok'|] eqn:Hrec.
      * apply (IH c) in Hrec as (rest & -> & Hlow & Hrest); [|done]. split.
        -- intros [= <-]. exists rest. simpl. by rewrite Hc, Hlow.
        -- intros (rest' & Heq & Hlow' & Hrest').
           destruct tok as [|c' tok].
           { simpl in Heq. subst rest'. simpl in Hrest'. congruence. }
           simpl in Heq. injection Heq as <- Heq.
           simpl in Hlow'. apply andb_prop in Hlow' as [_ Hlow'].
           assert (Regex.lower_star_b ua c (tok' ++ rest) = Some tok) as H.
           { apply (IH c); [done|]. by exists rest'. }
           assert (Regex.lower_star_b ua c (tok' ++ rest) = Some tok') as H'.
           { apply (IH c); [done|]. by exists rest. }
           congruence.
      * split; [done|].
        intros (rest' & Heq & Hlow' & Hrest').
        destruct tok as [|c' tok].
        { simpl in Heq. subst rest'. simpl in Hrest'. congruence. }
        simpl in Heq. injection Heq as <- Heq.
        simpl in Hlow'. apply andb_prop in Hlow' as [_ Hlow'].
        assert (Regex.lower_star_b ua c s = Some tok) as H.
        { apply (IH c); [done|]. by exists rest'. }
        congruence.
    + destruct (Regex.is_word ua c) eqn:Hw; simpl; split.
      * done.
      * intros (rest' & Heq & Hlow' & Hrest').
        destruct tok as [|c' tok].
        { simpl in Heq. subst rest'. simpl in Hrest'. congruence. }
        simpl in Heq. injection Heq as <- Heq.
        simpl in Hlow'. apply andb_prop in Hlow' as [? _]. congruence.
      * intros [= <-]. exists (c :: s). by simpl.
      * intros (rest' & Heq & Hlow' & Hrest').
        destruct tok as [|c' tok]; [done|].
        simpl in Heq. injection Heq as <- Heq.
        simpl in Hlow'. apply andb_prop in Hlow' as [? _]. congruence.
Qed.

(** A match is a capitalized word at the head of the text, with no word
    character before it and none after it. *)
Lemma match_here_sound ua prev (s tok : pystr) :
  Regex.match_here ua prev s = Some tok →
  ∃ rest,
    s = tok ++ rest ∧ is_capitalized tok = true ∧
    from_option (Regex.is_word ua) false prev = false ∧
    from_option (Regex.is_word ua) false (head rest) = false.
Proof.
  unfold Regex.match_here, Regex.at_boundary.
  destruct s as [|c [|d s]]; simpl.
  - by destruct (from_option _ _ prev).
  - by destruct (xorb _ _).
  - destruct (xorb _ _) eqn:Hb; [|done].
    destruct (Regex.is_upper c) eqn:Hc; [|done].
    destruct (Regex.is_lower d) eqn:Hd; [|done]. simpl.
    destruct (Regex.lower_star_b ua d s) as [tok'|] eqn:Hrec; [|done].
    simpl. intros [= <-].
    apply lower_star_b_iff in Hrec as (rest & -> & Hlow & Hrest);
      [|by apply is_lower_word].
    exists rest. simpl. rewrite Hc, Hd, Hlow. repeat split; [|done].
    rewrite (is_upper_word ua c Hc) in Hb.
    by destruct (from_option _ _ prev).
Qed.

(** Such a word is matched, and whole. *)
Lemma match_here_complete ua prev (tok rest : pystr) :
  is_capitalized tok = true →
  from_option (Regex.is_word ua) false prev = false →
  from_option (Regex.is_word ua) false (head rest) = false →
  Regex.match_here ua prev (tok ++ rest) = Some tok.
Proof.
  intros Hcap Hprev Hrest. unfold Regex.match_here, Regex.at_boundary.
  destruct tok as [|c [|d lows]]; try done. simpl in Hcap.
  apply andb_prop in Hcap as [[Hc Hd]%andb_prop Hlow].
  simpl. rewrite Hprev, (is_upper_word ua c Hc), Hc, Hd. simpl.
  assert (Regex.lower_star_b ua d (lows ++ rest) = Some lows) as ->.
  { apply lower_star_b_iff; [by apply is_lower_word|]. by exists rest. }
  done.
Qed.

(** X3: the pattern matches at a position exactly when the text there
    begins with a capital letter and a maximal run of one or more small
    letters, with no word character just before and none just after; the
    match is that word (giving characters back never yields a shorter
    match). *)
Theorem match_here_iff ua prev (s tok : pystr) :
  Regex.match_here ua prev s = Some tok ↔
  ∃ rest,
    s = tok ++ rest ∧ is_capitalized tok = true ∧
    from_option (Regex.is_word ua) false prev = false ∧
    from_option (Regex.is_word ua) false (head rest) = false.
Proof.
  split.
  - apply match_here_sound.
  - intros (rest & -> & Hcap & Hprev & Hrest).
    by apply match_here_complete.
Qed.

(** ** How [findall] scans *)

Lemma findall_from_0_cons ua prev c (s : pystr) :
  Regex.findall_from ua 0 prev (c :: s)
  = match Regex.match_here ua prev (c :: s) with
    | Some tok => tok :: Regex.findall_from ua (length tok - 1) (Some c) s
    | None => Regex.findall_from ua 0 (Some c) s
    end.
Proof. reflexivity. Qed.

Lemma prev_after_cons prev c (t : pystr) :
  prev_after prev (c :: t) = prev_after (Some c) t.
Proof.
  unfold prev_after. destruct t as [|c' t]; [done|].
  change (last (c :: c' :: t)) with (last (c' :: t)).
  destruct (last (c' :: t)) eqn:Hlast; [done|].
  by apply last_None in Hlast.
Qed.

Lemma findall_from_skip ua (t rest : pystr) :
  ∀ prev,
    Regex.findall_from ua (length t) prev (t ++ rest)
    = Regex.findall_from ua 0 (prev_after prev t) rest.
Proof.
  induction t as [|c t IH]; intros prev; [done|].
  rewrite prev_after_cons, <- IH. reflexivity.
Qed.

(** The scan looks at the character before a position only to see
    whether it is a word character. *)
Lemma findall_from_prev ua prev prev' (s : pystr) :
  from_option (Regex.is_word ua) false prev
  = from_option (Regex.is_word ua) false prev' →
  Regex.findall_from ua 0 prev s = Regex.findall_from ua 0 prev' s.
Proof.
  intros H. destruct s as [|c s]; [done|].
  rewrite !findall_from_0_cons. unfold Regex.match_here, Regex.at_boundary.
  by rewrite H.
Qed.

Lemma findall_from_match ua prev (tok rest : pystr) :
  Regex.match_here ua prev (tok ++ rest) = Some tok →
  Regex.findall_from ua 0 prev (tok ++ rest)
  = tok :: Regex.findall_from ua 0 (prev_after prev tok) rest.
Proof.
  intros Hm. destruct tok as [|c t].
  { apply match_here_sound in Hm as (? & _ & ? & _). done. }
  rewrite <- app_comm_cons in *. rewrite findall_from_0_cons, Hm.
  rewrite prev_after_cons, <- findall_from_skip. simpl.
  by rewrite Nat.sub_0_r.
Qed.

Lemma findall_from_separator ua prev sep (rest : pystr) :
  Regex.is_word ua sep = false →
  Regex.findall_from ua 0 prev (sep :: rest)
  = Regex.findall_from ua 0 None rest.
Proof.
  intros Hsep. rewrite findall_from_0_cons.
  destruct (Regex.match_here ua prev (sep :: rest)) as [tok|] eqn:Hm.
  - apply match_here_sound in Hm as (r & Heq & Hcap & _).
    destruct tok as [|c [|d lows]]; try done.
    injection Heq as <- _. simpl in Hcap.
    apply andb_prop in Hcap as [[Hc _]%andb_prop _].
    apply (is_upper_word ua) in Hc. congruence.
  - apply findall_from_prev. simpl. by rewrite Hsep.
Qed.

(** X4: [findall] works word by word: a capitalized word at the start of
    the text, followed by a character that is not a word character, is
    the first match and the scan goes on behind that character as from
    the start; a leading character that is not a word character is
    passed; a text that is one capitalized word gives that word. *)
Theorem findall_word_by_word ua (tok : pystr) sep (rest : pystr) :
  is_capitalized tok = true →
  Regex.is_word ua sep = false →
  Regex.findall ua (tok ++ sep :: rest) = tok :: Regex.findall ua rest ∧
  Regex.findall ua (sep :: rest) = Regex.findall ua rest ∧
  Regex.findall ua tok = [tok].
Proof.
  intros Hcap Hsep. unfold Regex.findall. split; [|split].
  - rewrite findall_from_match.
    + by rewrite findall_from_separator.
    + apply match_here_complete; [done|done|]. simpl. by rewrite Hsep.
  - by apply findall_from_separator.
  - rewrite <- (app_nil_r tok) at 1. rewrite findall_from_match; [done|].
    by apply match_here_complete.
Qed.

Lemma findall_from_token ua (s : pystr) :
  ∀ skip prev tok,
    tok ∈ Regex.findall_from ua skip prev s →
    is_capitalized tok = true ∧ ∃ pre post, s = pre ++ tok ++ post.
Proof.
  induction s as [|c s IH]; intros skip prev tok.
  - by intros ?%elem_of_nil.
  - assert (∀ k p, tok ∈ Regex.findall_from ua k p s →
              is_capitalized tok = true
              ∧ ∃ pre post, c :: s = pre ++ tok ++ post) as Hlater.
    { intros k p (Hcap & pre & post & ->)%IH.
      split; [done|]. by exists (c :: pre), post. }
    destruct skip as [|k]; [|by apply Hlater].
    rewrite findall_from_0_cons.
    destruct (Regex.match_here ua prev (c :: s)) as [tok'|] eqn:Hm;
      [|by apply Hlater].
    intros [->|Hin]%elem_of_cons; [|by eapply Hlater].
    apply match_here_sound in Hm as (rest & Heq & Hcap & _).
    split; [done|]. by exists [], rest.
Qed.

(** X2: every label is a capitalized word (a capital ASCII letter and at
    least one small ASCII letter after it) and stands in the text as it
    is, as a contiguous piece. *)
Theorem labels_are_words_of_text unicode_alnum set_iter text e :
  (∀ words w, w ∈ set_iter words ↔ w ∈ words) →
  e ∈ (extract_entities unicode_alnum set_iter text).1 →
  is_capitalized (Entity.label e) = true ∧
  ∃ pre post, text = pre ++ Entity.label e ++ post.
Proof.
  intros Hel [i Hi]%list_elem_of_lookup.
  apply extract_entities_lookup in Hi as (w & Hw & ->). simpl.
  apply list_elem_of_lookup_2 in Hw. apply (proj1 (Hel _ _)) in Hw.
  by apply findall_from_token in Hw.
Qed.

Lemma entity_type_country (w : pystr) :
  entity_type w = lit "Country" ↔ w ∈ countries.
Proof.
  split; [|apply type_of_country].
  unfold entity_type. by repeat case_bool_decide.
Qed.

(** X5: the entry "UK" of the list of countries can never apply: no
    entity has the label "UK", and an entity has the type "Country"
    exactly when its label is one of the seven other entries. *)
Theorem country_without_UK unicode_alnum set_iter text e :
  (∀ words w, w ∈ set_iter words ↔ w ∈ words) →
  e ∈ (extract_entities unicode_alnum set_iter text).1 →
  Entity.label e ≠ lit "UK" ∧
  (Entity.type e = lit "Country" ↔
   Entity.label e ∈ lit <$> ["France"; "Germany"; "Italy"; "Spain";
                             "Netherlands"; "Austria"; "United"]%string).
Proof.
  intros Hel [i Hi]%list_elem_of_lookup.
  apply extract_entities_lookup in Hi as (w & Hw & ->). simpl.
  apply list_elem_of_lookup_2 in Hw. apply (proj1 (Hel _ _)) in Hw.
  apply findall_from_token in Hw as [Hcap _].
  assert (w ≠ lit "UK") as Hne by (by intros ->).
  split; [done|]. rewrite entity_type_country.
  unfold countries. simpl. rewrite !elem_of_cons, !elem_of_nil.
  split; [|tauto]. intros H.
  repeat (destruct H as [H|H]; [tauto|]). done.
Qed.

(** ** The entity map and the number of entities *)

Lemma extract_entities_map_loop (l : list pystr) :
  NoDup l →
  ∀ k entities (entity_map : gmap pystr pystr) w v,
    (foldl extract_entities_body (entities, entity_map)
       (imap (λ i w, (k + i, w)) l)).2 !! w = Some v ↔
    (∃ i, l !! i = Some w ∧ v = lit "e" ++ str_of_int (k + i + 1)) ∨
    ((w ∉ l) ∧ entity_map !! w = Some v).
Proof.
  induction 1 as [|w0 l Hnotin Hnd IH]; intros k entities entity_map w v.
  - simpl. split.
    + intros H. right. split; [apply not_elem_of_nil | done].
    + by intros [(i & ? & _)|[_ ?]].
  - rewrite imap_cons. simpl.
    rewrite (imap_ext _ (λ i w, (S k + i, w)))
      by (intros; simpl; f_equal; lia).
    rewrite IH. rewrite Nat.add_0_r. split.
    + intros [(i & Hi & ->)|[Hw Hlook]].
      * left. exists (S i). split; [done|]. do 2 f_equal. lia.
      * destruct (decide (w0 = w)) as [->|Hne].
        -- rewrite lookup_insert_eq in Hlook. injection Hlook as <-.
           left. exists 0. split; [done|]. by rewrite Nat.add_0_r.
        -- rewrite lookup_insert_ne in Hlook by done.
           right. split; [|done]. by apply not_elem_of_cons.
    + intros [(i & Hi & ->)|[Hw Hlook]].
      * destruct i as [|i].
        -- injection Hi as ->. right. split; [done|].
           by rewrite lookup_insert_eq, Nat.add_0_r.
        -- left. exists i. split; [done|]. do 2 f_equal. lia.
      * apply not_elem_of_cons in Hw as [Hne Hw].
        right. split; [done|]. by rewrite lookup_insert_ne.
Qed.

(** X1: [entity_map] is the index of the entities by label: it maps a
    word to an id exactly when some entity has that label and that id;
    its keys are the words matched in the text. *)
Theorem entity_map_index unicode_alnum set_iter text :
  (∀ words, NoDup (set_iter words)) →
  (∀ words w, w ∈ set_iter words ↔ w ∈ words) →
  let '(entities, entity_map) :=
    extract_entities unicode_alnum set_iter text in
  (∀ w v, entity_map !! w = Some v ↔
          ∃ e, e ∈ entities ∧ Entity.label e = w ∧ Entity.id e = v) ∧
  (∀ w, is_Some (entity_map !! w) ↔ w ∈ Regex.findall unicode_alnum text).
Proof.
  intros Hnd Hel.
  pose proof (extract_entities_lookup unicode_alnum set_iter text) as Hent.
  pose proof (extract_entities_map_loop
                (set_iter (Regex.findall unicode_alnum text)) (Hnd _)
                0 [] ∅) as Hmap.
  unfold extract_entities, enumerate in *.
  rewrite (imap_ext _ (λ i w, (0 + i, w))) in * by done.
  destruct (foldl _ _ _) as [entities entity_map]. simpl in *.
  assert (∀ w v, entity_map !! w = Some v ↔
            ∃ i, set_iter (Regex.findall unicode_alnum text) !! i = Some w
                 ∧ v = lit "e" ++ str_of_int (i + 1)) as Hidx.
  { intros w v. rewrite Hmap. split; [|by left].
    intros [H|[_ H]]; [done|]. by rewrite lookup_empty in H. }
  split.
  - intros w v. rewrite Hidx. split.
    + intros (i & Hi & ->). exists (entity_of i w).
      split; [|done]. apply list_elem_of_lookup. exists i.
      apply Hent. by exists w.
    + intros (e & [i Hi]%list_elem_of_lookup & <- & <-).
      apply Hent in Hi as (w & Hw & ->). by exists i.
  - intros w. rewrite <- Hel, list_elem_of_lookup. split.
    + intros [v (i & Hi & _)%Hidx]. by exists i.
    + intros [i Hi]. eexists. apply Hidx. by exists i.
Qed.

(** X6: there are as many entities as distinct words matched in the
    text, in whatever order the set is iterated. *)
Theorem entity_count unicode_alnum set_iter text :
  (∀ words, NoDup (set_iter words)) →
  (∀ words w, w ∈ set_iter words ↔ w ∈ words) →
  length (extract_entities unicode_alnum set_iter text).1
  = length (remove_dups (Regex.findall unicode_alnum text)) ∧
  length (extract_entities unicode_alnum set_iter text).1
  ≤ length (Regex.findall unicode_alnum text).
Proof.
  intros Hnd Hel. rewrite extract_entities_length. split.
  - apply Permutation_length, NoDup_Permutation;
      [apply Hnd | apply NoDup_remove_dups|].
    intros w. by rewrite Hel, elem_of_remove_dups.
  - by apply set_iter_length.
Qed.

(** ** The shape of the triples *)

(** X7: the triples form a chain along the entity list: triple i goes
    from entity i to entity i+1, so the object of a triple is the subject
    of the next one; the index (i+1) mod N never wraps round to the first
    entity. *)
Theorem triples_chain (entities : list Entity.t) entity_map rels ts :
  extract_relations entities entity_map = Ok (rels, ts) →
  (∀ i t, ts !! i = Some t →
     (Entity.id <$> entities) !! i = Some (Triple.subject t) ∧
     (Entity.id <$> entities) !! (i + 1) = Some (Triple.object t)) ∧
  (∀ i t t', ts !! i = Some t → ts !! (i + 1) = Some t' →
     Triple.object t = Triple.subject t').
Proof.
  intros Hrun.
  assert (∀ i t, ts !! i = Some t →
     (Entity.id <$> entities) !! i = Some (Triple.subject t) ∧
     (Entity.id <$> entities) !! (i + 1) = Some (Triple.object t)) as Hpos.
  { intros i t Hti.
    destruct (extract_relations_inv _ _ _ _ Hrun)
      as [(_ & _ & ->)|(HN & _ & _ & Hlen & Hi)]; [done|].
    pose proof (lookup_lt_Some _ _ _ Hti) as Hlt.
    destruct (Hi i Hlt) as (e1 & e2 & r & He1 & He2 & _ & Ht).
    rewrite Hti in Ht. injection Ht as ->. simpl.
    rewrite Nat.mod_small in He2 by lia.
    by rewrite !list_lookup_fmap, He1, He2. }
  split; [exact Hpos|].
  intros i t t' Ht Ht'.
  destruct (Hpos _ _ Ht) as [_ H1]. destruct (Hpos _ _ Ht') as [H2 _].
  congruence.
Qed.

Lemma relation_types_NoDup : NoDup relation_types.
Proof. apply (bool_decide_unpack _). by vm_compute. Qed.

(** X8: the relations returned are pairwise distinct and every one of
    them is used: relation k is the predicate of triple k. *)
Theorem relations_all_used (entities : list Entity.t) entity_map rels ts :
  extract_relations entities entity_map = Ok (rels, ts) →
  NoDup rels ∧
  length rels ≤ length ts ∧
  ∀ k r, rels !! k = Some r →
    ∃ t, ts !! k = Some t ∧ Triple.predicate t = r.
Proof.
  intros Hrun.
  destruct (extract_relations_inv _ _ _ _ Hrun)
    as [(_ & -> & ->)|(HN & Hrels & Hlr & Hlen & Hi)].
  - split; [constructor|]. split; [done|]. by intros k r ?.
  - split; [|split].
    + rewrite Hrels. eapply sublist_NoDup;
        [apply relation_types_NoDup | apply sublist_take].
    + lia.
    + intros k r Hk. pose proof (lookup_lt_Some _ _ _ Hk) as Hlt.
      destruct (Hi k) as (e1 & e2 & r' & _ & _ & Hr & Ht); [lia|].
      rewrite Nat.mod_small, Hk in Hr by done. injection Hr as <-.
      by eexists.
Qed.

Lemma set_iter_distinct (set_iter : list pystr → list pystr) words :
  (∀ words, NoDup (set_iter words)) →
  (∀ words w, w ∈ set_iter words ↔ w ∈ words) →
  length (set_iter words) = length (remove_dups words).
Proof.
  intros Hnd Hel.
  apply Permutation_length, NoDup_Permutation;
    [apply Hnd | apply NoDup_remove_dups|].
  intros w. by rewrite Hel, elem_of_remove_dups.
Qed.

(** [extract_relations] looks at the ids of the entities only. *)
Lemma extract_relations_ids (es1 es2 : list Entity.t) m1 m2 :
  Entity.id <$> es1 = Entity.id <$> es2 →
  extract_relations es1 m1 = extract_relations es2 m2.
Proof.
  intros Hids.
  assert (length es1 = length es2) as Hlen.
  { by rewrite <- (length_fmap Entity.id es1), Hids, length_fmap. }
  destruct (decide (length es1 < 2)) as [Hlt|Hge].
  - unfold extract_relations.
    destruct (decide (length es1 < 2)); [|lia].
    by destruct (decide (length es2 < 2)); [|lia].
  - destruct (extract_relations_spec es1 m1) as (ts1 & -> & Hl1 & H1); [lia|].
    destruct (extract_relations_spec es2 m2) as (ts2 & -> & Hl2 & H2); [lia|].
    rewrite <- Hlen in *. do 2 f_equal.
    apply list_eq. intros i.
    destruct (decide (i < min (length es1 - 1) 5)) as [Hi|Hi].
    + destruct (H1 i Hi) as (a1 & a2 & r & Ha1 & Ha2 & Hr & ->).
      destruct (H2 i Hi) as (b1 & b2 & r' & Hb1 & Hb2 & Hr' & ->).
      assert (∀ j a b, es1 !! j = Some a → es2 !! j = Some b →
                       Entity.id a = Entity.id b) as Hsame.
      { intros j a b Ha Hb.
        assert ((Entity.id <$> es1) !! j = (Entity.id <$> es2) !! j) as H
          by (by rewrite Hids).
        rewrite !list_lookup_fmap, Ha, Hb in H. by injection H. }
      rewrite (Hsame _ _ _ Ha1 Hb1), (Hsame _ _ _ Ha2 Hb2).
      congruence.
    + by rewrite !lookup_ge_None_2 by lia.
Qed.

(** X9: the relations and the triples do not depend on the order in which
    the set of words is iterated (the ids are given by position, so only
    the number of distinct words counts). *)
Theorem relations_independent_of_order unicode_alnum set_iter1 set_iter2 text :
  (∀ words, NoDup (set_iter1 words)) →
  (∀ words w, w ∈ set_iter1 words ↔ w ∈ words) →
  (∀ words, NoDup (set_iter2 words)) →
  (∀ words w, w ∈ set_iter2 words ↔ w ∈ words) →
  extract_relations (extract_entities unicode_alnum set_iter1 text).1
                    (extract_entities unicode_alnum set_iter1 text).2
  = extract_relations (extract_entities unicode_alnum set_iter2 text).1
                      (extract_entities unicode_alnum set_iter2 text).2.
Proof.
  intros Hnd1 Hel1 Hnd2 Hel2. apply extract_relations_ids.
  rewrite !extract_entities_fst. apply list_eq. intros i.
  rewrite !list_lookup_fmap, !list_lookup_imap.
  pose proof (set_iter_distinct set_iter1
                (Regex.findall unicode_alnum text) Hnd1 Hel1) as H1.
  pose proof (set_iter_distinct set_iter2
                (Regex.findall unicode_alnum text) Hnd2 Hel2) as H2.
  destruct (set_iter1 _ !! i) as [w1|] eqn:E1;
    destruct (set_iter2 _ !! i) as [w2|] eqn:E2; try done.
  - apply lookup_lt_Some in E1. apply lookup_ge_None in E2. lia.
  - apply lookup_lt_Some in E2. apply lookup_ge_None in E1. lia.
Qed.

(** ** The note id *)

Lemma basename_from_no_slash (p : pystr) :
  ∀ cur, 47%N ∉ p → basename_from cur p = cur.
Proof.
  induction p as [|c p IH]; intros cur Hp; [done|].
  apply not_elem_of_cons in Hp as [Hc Hp]. simpl.
  destruct (N.eqb_spec c 47); [congruence | by apply IH].
Qed.

Lemma basename_from_app (dir name : pystr) :
  ∀ cur, 47%N ∉ name → basename_from cur (dir ++ 47%N :: name) = name.
Proof.
  induction dir as [|c dir IH]; intros cur Hname; simpl.
  - by apply basename_from_no_slash.
  - destruct (c =? 47)%N; by apply IH.
Qed.

Lemma split_head_prefix sep (s : pystr) : split_head sep s `prefix_of` s.
Proof.
  induction s as [|c s IH]; [done|]. simpl.
  destruct (c =? sep)%N; [apply prefix_nil | by apply prefix_cons].
Qed.

Lemma split_head_no_sep sep (s : pystr) : sep ∉ split_head sep s.
Proof.
  induction s as [|c s IH]; simpl; [apply not_elem_of_nil|].
  destruct (N.eqb_spec c sep); [apply not_elem_of_nil|].
  apply not_elem_of_cons. split; [congruence | done].
Qed.

Lemma split_head_app sep (a b : pystr) :
  sep ∉ a → split_head sep (a ++ sep :: b) = a.
Proof.
  induction a as [|c a IH]; simpl.
  - intros _. by rewrite N.eqb_refl.
  - intros [Hc Ha]%not_elem_of_cons.
    destruct (N.eqb_spec c sep); [congruence|]. by rewrite IH.
Qed.

Lemma split_head_id sep (s : pystr) : sep ∉ s → split_head sep s = s.
Proof.
  induction s as [|c s IH]; [done|]. simpl.
  intros [Hc Hs]%not_elem_of_cons.
  destruct (N.eqb_spec c sep); [congruence|]. by rewrite IH.
Qed.

(** X10: the note id of [main] depends on the file name only, not on the
    directory: for the path dir/name it is the part of name before its
    first "-" (the whole name when it has none), so it holds neither "/"
    nor "-". *)
Theorem note_id_of_path (dir name : pystr) :
  47%N ∉ name →
  let note_id := split_head 45 (basename (dir ++ 47%N :: name)) in
  note_id = split_head 45 (basename name) ∧
  note_id `prefix_of` name ∧
  (45%N ∉ note_id) ∧ (47%N ∉ note_id) ∧
  (45%N ∉ name → note_id = name) ∧
  (∀ a b, name = a ++ 45%N :: b → 45%N ∉ a → note_id = a).
Proof.
  intros Hname. unfold basename.
  rewrite basename_from_app, basename_from_no_slash by done. simpl.
  split; [done|]. split; [apply split_head_prefix|].
  split; [apply split_head_no_sep|]. split; [|split].
  - intros Hin. apply Hname.
    destruct (split_head_prefix 45 name) as [k ->].
    apply elem_of_app. by left.
  - apply split_head_id.
  - intros a b -> Ha. by apply split_head_app.
Qed.

(** ** The text that is written *)

Transparent Json.newline_indent Json.item_separator Json.escape.

Ltac printable_list :=
  repeat first [rewrite Forall_app | rewrite Forall_cons | rewrite Forall_nil];
  repeat split; try (unfold printable; lia).

Lemma hex_digit_printable (d : N) :
  (d < 16)%N → printable (Json.hex_digit d).
Proof.
  intros Hd. unfold printable, Json.hex_digit.
  destruct (N.ltb_spec d 10); lia.
Qed.

Lemma format_04x_printable (n : N) :
  (n < 0x10000)%N → Forall printable (Json.format_04x n).
Proof.
  intros Hn. unfold Json.format_04x.
  printable_list; apply hex_digit_printable;
    try (apply N.mod_upper_bound; lia).
  apply N.Div0.div_lt_upper_bound. lia.
Qed.

Lemma surrogate_half_bound (base x : N) :
  (N.lor (N.shiftl base 10) (N.land x 0x3ff)
   < N.shiftl base 10 + 1024)%N.
Proof.
  change 0x3ff%N with (N.ones 10). rewrite N.land_ones.
  change (2 ^ 10)%N with 1024%N.
  pose proof (N.mod_upper_bound x 1024) as Hr.
  rewrite lor_shiftl_add by (change (2 ^ 10)%N with 1024%N; lia).
  rewrite N.shiftl_mul_pow2. lia.
Qed.

Lemma replace_printable (c : N) : Forall printable (Json.replace c).
Proof.
  unfold Json.replace.
  destruct (Json.ESCAPE_DCT c) as [r|] eqn:Hd.
  - unfold Json.ESCAPE_DCT in Hd.
    repeat match type of Hd with
           | (if ?b then _ else _) = _ =>
               destruct b; [injection Hd as <-; by printable_list|]
           end.
    done.
  - destruct (N.ltb_spec c 0x10000) as [Hlt|Hge].
    + printable_list. by apply format_04x_printable.
    + cbv zeta. printable_list.
      * apply format_04x_printable.
        pose proof (surrogate_half_bound 54 (N.shiftr (c - 0x10000) 10)).
        change (N.shiftl 54 10) with 0xd800%N in *. lia.
      * apply format_04x_printable.
        pose proof (surrogate_half_bound 55 (c - 0x10000)).
        change (N.shiftl 55 10) with 0xdc00%N in *. lia.
Qed.

Lemma escape_char_printable (c : N) : Forall printable (Json.escape_char c).
Proof.
  unfold Json.escape_char.
  destruct (Json.ESCAPE_ASCII c) eqn:He; [apply replace_printable|].
  apply Forall_cons. split; [|constructor]. right.
  unfold Json.ESCAPE_ASCII in He. revert He. by nbool.
Qed.

Lemma escape_printable (s : pystr) : Forall printable (Json.escape s).
Proof.
  unfold Json.escape. induction s as [|c s IH]; [constructor|].
  rewrite fmap_cons. simpl. apply Forall_app.
  split; [apply escape_char_printable | exact IH].
Qed.

Lemma encode_basestring_ascii_printable (s : pystr) :
  Forall printable (Json.encode_basestring_ascii s).
Proof.
  unfold Json.encode_basestring_ascii. printable_list.
  apply escape_printable.
Qed.

Lemma newline_indent_printable (level : nat) :
  Forall printable (Json.newline_indent level).
Proof.
  unfold Json.newline_indent. apply Forall_cons. split; [by left|].
  apply Forall_replicate. unfold printable. lia.
Qed.

Lemma iterencode_items_printable {A} (enc : A → pystr) sep (l : list A) :
  Forall (λ x, Forall printable (enc x)) l → Forall printable sep →
  ∀ first, Forall printable (Json.iterencode_items enc sep first l).
Proof.
  intros Hl Hsep. induction Hl as [|x l Hx Hl IH]; intros first.
  - rewrite iterencode_items_nil. constructor.
  - rewrite iterencode_items_cons. rewrite !Forall_app.
    split; [|split]; [|done|apply IH].
    destruct first; [constructor | done].
Qed.

Lemma item_separator_printable (level : nat) :
  Forall printable (Json.item_separator level).
Proof.
  unfold Json.item_separator. apply Forall_cons.
  split; [unfold printable; lia | apply newline_indent_printable].
Qed.

Lemma iterencode_printable (o : pyobj) :
  ∀ level, Forall printable (Json.iterencode level o).
Proof.
  induction o as [s|l IHl|d IHd] using pyobj_induction; intros level.
  - change (Json.iterencode level (PStr s))
      with (Json.encode_basestring_ascii s).
    apply encode_basestring_ascii_printable.
  - destruct l as [|x l].
    { change (Json.iterencode level (PList [])) with [91; 93]%N.
      by printable_list. }
    change (Json.iterencode level (PList (x :: l)))
      with (91%N :: Json.newline_indent (S level)
            ++ Json.iterencode_items (Json.iterencode (S level))
                 (Json.item_separator (S level)) true (x :: l)
            ++ Json.newline_indent level ++ [93%N]).
    apply Forall_cons. split; [unfold printable; lia|].
    rewrite !Forall_app. split; [|split; [|split]].
    + apply newline_indent_printable.
    + apply iterencode_items_printable; [|apply item_separator_printable].
      eapply Forall_impl; [exact IHl|]. intros y Hy. apply Hy.
    + apply newline_indent_printable.
    + by printable_list.
  - destruct d as [|[k v] d].
    { change (Json.iterencode level (PDict [])) with [123; 125]%N.
      by printable_list. }
    change (Json.iterencode level (PDict ((k, v) :: d)))
      with (123%N :: Json.newline_indent (S level)
            ++ Json.iterencode_items (iterencode_item (S level))
                 (Json.item_separator (S level)) true ((k, v) :: d)
            ++ Json.newline_indent level ++ [125%N]).
    apply Forall_cons. split; [unfold printable; lia|].
    rewrite !Forall_app. split; [|split; [|split]].
    + apply newline_indent_printable.
    + apply iterencode_items_printable; [|apply item_separator_printable].
      eapply Forall_impl; [exact IHd|]. intros [k' v'] Hv. simpl in Hv.
      rewrite <- (app_nil_r (iterencode_item _ _)), dict_item_text.
      rewrite app_nil_r.
      apply Forall_cons. split; [unfold printable; lia|].
      apply Forall_app. split; [apply escape_printable|].
      do 3 (apply Forall_cons; split; [unfold printable; lia|]).
      apply Hv.
    + apply newline_indent_printable.
    + by printable_list.
Qed.

(** X11: whatever the path and the text, [main] builds a fragment and the
    text written for it consists of newlines and printable ASCII
    characters only: every other character of a string is written as an
    escape. *)
Theorem output_is_ascii unicode_alnum set_iter input text :
  ∃ frag,
    main_fragment unicode_alnum set_iter input text = Ok frag ∧
    Forall printable (Json.dump frag).
Proof.
  unfold main_fragment.
  destruct (extract_entities unicode_alnum set_iter text)
    as [entities entity_map].
  assert (∃ rels ts, extract_relations entities entity_map = Ok (rels, ts))
    as (rels & ts & ->).
  { destruct (decide (length entities < 2)) as [Hlt|Hge].
    - exists [], []. unfold extract_relations.
      by destruct (decide (length entities < 2)).
    - destruct (extract_relations_spec entities entity_map) as (ts & Hok & _);
        [lia | eauto]. }
  eexists. split; [reflexivity|]. apply iterencode_printable.
Qed.

(** ** The fragment made from the generator's result *)

Lemma or_default_str_ok x d :
  from_option str_ok true x = true → str_ok d = true →
  str_ok (or_default x d) = true.
Proof. destruct x as [[|c s]|]; simpl; auto. Qed.

Lemma or_default_nonempty x d : d ≠ [] → or_default x d ≠ [].
Proof. by destruct x as [[|c s]|]. Qed.

(** X12: in the scripts that call the real generator, a missing or empty
    entity type becomes "Concept", so no entity of the result has an
    empty type; and when the strings that the generator returns and the
    note id are well formed, the result is read back unchanged from the
    text that is written. *)
Theorem cli_result_round_trip input (graph : Graph.t) :
  str_ok (split_head 46 (basename input)) = true →
  (∀ e, e ∈ Graph.entities graph →
        str_ok (Graph.id e) = true ∧ str_ok (Graph.label e) = true
        ∧ from_option str_ok true (Graph.type e) = true) →
  (∀ r, r ∈ Graph.relations graph → str_ok r = true) →
  (∀ t, t ∈ Graph.triples graph →
        str_ok (Graph.subject t) = true ∧ str_ok (Graph.predicate t) = true
        ∧ str_ok (Graph.object t) = true) →
  Json.load (Json.dump (cli_result input graph))
  = Some (cli_result input graph) ∧
  (∀ e, e ∈ convert_entity <$> Graph.entities graph → Entity.type e ≠ []) ∧
  (∀ e, e ∈ Graph.entities graph →
        Graph.type e = None ∨ Graph.type e = Some [] →
        Entity.type (convert_entity e) = lit "Concept").
Proof.
  intros Hid Hent Hrel Htr. split; [|split].
  - apply load_dump, fragment_ok; [done| |done|].
    + intros e (ge & -> & Hge)%list_elem_of_fmap.
      destruct (Hent ge Hge) as (? & ? & ?). simpl.
      split; [done|]. split; [done|].
      by apply or_default_str_ok.
    + intros t (gt & -> & Hgt)%list_elem_of_fmap. by apply Htr.
  - intros e (ge & -> & _)%list_elem_of_fmap. simpl.
    by apply or_default_nonempty.
  - intros e _ [H|H]; unfold convert_entity; simpl; by rewrite H.
Qed.

(** ** The vocabulary of a fragment *)

(** X13: whatever the number of entities, the predicate of triple i is
    entry i mod 4 of the list of relation types: the predicates follow
    that list in order, and a fifth triple takes its first entry again. *)
Theorem predicate_by_position (entities : list Entity.t) entity_map rels ts :
  extract_relations entities entity_map = Ok (rels, ts) →
  ∀ i t, ts !! i = Some t →
    relation_types !! (i mod 4) = Some (Triple.predicate t).
Proof.
  intros Hrun i t Hti.
  destruct (extract_relations_inv _ _ _ _ Hrun)
    as [(_ & _ & ->)|(HN & Hrels & Hlr & Hlen & Hi)]; [done|].
  pose proof (lookup_lt_Some _ _ _ Hti) as Hlt.
  destruct (Hi i Hlt) as (e1 & e2 & r & _ & _ & Hr & Ht).
  rewrite Hti in Ht. injection Ht as ->. simpl.
  assert (i mod length rels = i mod 4) as Hmod.
  { rewrite Hlr. destruct (decide (length entities - 1 < 4)) as [Hsmall|Hbig].
    - rewrite Nat.min_l by lia.
      assert (i < length entities - 1) by lia.
      assert (i < 4) by lia.
      by rewrite !Nat.mod_small.
    - by rewrite Nat.min_r by lia. }
  rewrite Hmod, Hrels in Hr. by apply lookup_take_Some in Hr as [Hr _].
Qed.

Lemma entity_type_vocabulary (w : pystr) :
  entity_type w
  ∈ lit <$> ["Concept"; "Day"; "Month"; "City"; "Country"]%string.
Proof.
  unfold entity_type. simpl. rewrite !elem_of_cons.
  repeat case_bool_decide; tauto.
Qed.

(** X14: the fragment of the mock generator uses a closed vocabulary:
    every entity type is one of "Concept", "Day", "Month", "City" and
    "Country", and every relation and every predicate is one of the four
    relation types. *)
Theorem closed_vocabulary unicode_alnum set_iter text rels ts :
  extract_relations (extract_entities unicode_alnum set_iter text).1
                    (extract_entities unicode_alnum set_iter text).2
  = Ok (rels, ts) →
  (∀ e, e ∈ (extract_entities unicode_alnum set_iter text).1 →
        Entity.type e
        ∈ lit <$> ["Concept"; "Day"; "Month"; "City"; "Country"]%string) ∧
  (∀ r, r ∈ rels → r ∈ relation_types) ∧
  (∀ t, t ∈ ts → Triple.predicate t ∈ relation_types).
Proof.
  intros Hrun. destruct (triples_fields _ _ _ _ Hrun) as [Hrels Hts].
  split; [|split].
  - intros e [i Hi]%list_elem_of_lookup.
    apply extract_entities_lookup in Hi as (w & _ & ->).
    apply entity_type_vocabulary.
  - exact Hrels.
  - intros t Ht. destruct (Hts t Ht) as (_ & Hp & _). by apply Hrels.
Qed.

(** ** Which strings are read back unchanged *)

Lemma lookahead_escape_valid (s rest : pystr) :
  Forall (λ c, (c < 0x110000)%N) s →
  from_option is_low_surrogate false (head s) = false →
  lookahead_low (Json.escape s ++ 34%N :: rest) = false.
Proof.
  destruct s as [|c s]; [done|].
  intros [Hc _]%Forall_cons Hlow. simpl in Hlow.
  unfold Json.escape. rewrite fmap_cons. simpl. rewrite <- app_assoc.
  by apply lookahead_escape_char.
Qed.

(** An escaped high surrogate and an escaped low surrogate after it are
    read as one character. *)
Lemma scanstring_surrogates (c c2 : N) (t : pystr) :
  is_high_surrogate c = true → is_low_surrogate c2 = true →
  Json.scanstring (Json.escape_char c ++ Json.escape_char c2 ++ t)
  = Json.prepend (Json.join_surrogates c c2) (Json.scanstring t).
Proof.
  intros Hc Hc2.
  assert (∀ x, (0xd800 ≤ x ≤ 0xdfff)%N →
               Json.escape_char x = 92%N :: 117%N :: Json.format_04x x)
    as Hesc.
  { intros x Hx. unfold Json.escape_char, Json.ESCAPE_ASCII, Json.replace,
      Json.ESCAPE_DCT. by nbool. }
  assert (0xd800 ≤ c ≤ 0xdbff)%N as Hrc
    by (revert Hc; unfold is_high_surrogate; nbool; done).
  assert (0xdc00 ≤ c2 ≤ 0xdfff)%N as Hrc2
    by (revert Hc2; unfold is_low_surrogate; nbool; done).
  rewrite !Hesc by lia.
  destruct (decode_format_04x c2 t) as (g1 & g2 & g3 & g4 & Hg & Hdec2);
    [lia|].
  rewrite <- !app_comm_cons, Hg.
  destruct (decode_format_04x c (92%N :: 117%N :: g1 :: g2 :: g3 :: g4 :: t))
    as (h1 & h2 & h3 & h4 & -> & Hdec1); [lia|].
  rewrite scanstring_unfold_u, Hdec1. cbv zeta. rewrite Hc. simpl.
  by rewrite Hdec2, Hc2.
Qed.

Lemma scanstring_escape_any (n : nat) :
  ∀ s rest,
    length s ≤ n → Forall (λ c, (c < 0x110000)%N) s →
    ∃ s', Json.scanstring (Json.escape s ++ 34%N :: rest) = Some (s', rest) ∧
          (str_ok s = true → s' = s) ∧
          (str_ok s = false → length s' < length s) ∧
          length s' ≤ length s.
Proof.
  induction n as [|n IH]; intros s rest Hlen Hvalid.
  { destruct s; [|simpl in Hlen; lia]. exists []. by repeat split. }
  destruct s as [|c s1]; [exists []; by repeat split|].
  apply Forall_cons in Hvalid as [Hc Hvalid]. simpl in Hlen.
  unfold Json.escape. rewrite fmap_cons. simpl. rewrite <- app_assoc.
  fold (Json.escape s1). apply N.ltb_lt in Hc as Hcb. rewrite Hcb. simpl.
  destruct (is_high_surrogate c
            && from_option is_low_surrogate false (head s1)) eqn:Hpair.
  - apply andb_prop in Hpair as [Hhigh Hlow].
    destruct s1 as [|c2 s2]; [done|]. simpl in Hlow, Hlen.
    apply Forall_cons in Hvalid as [_ Hvalid].
    destruct (IH s2 rest) as (s2' & Hscan & _ & _ & Hle); [lia|done|].
    unfold Json.escape. rewrite fmap_cons. simpl. rewrite <- app_assoc.
    fold (Json.escape s2).
    rewrite scanstring_surrogates, Hscan by done.
    eexists. split; [reflexivity|]. simpl. repeat split; (done || lia).
  - destruct (IH s1 rest) as (s1' & Hscan & Hsame & Hless & Hle); [lia|done|].
    rewrite scanstring_escape_char, Hscan; [|done|].
    + eexists. split; [reflexivity|]. simpl. repeat split.
      * intros Hok. by rewrite Hsame.
      * intros Hbad. apply Hless in Hbad. lia.
      * lia.
    + intros Hhigh. rewrite Hhigh in Hpair. simpl in Hpair.
      by apply lookahead_escape_valid.
Qed.

Lemma skip_ws_nil : Json.skip_ws [] = [].
Proof. reflexivity. Qed.

(** X15: a string is read back unchanged from the text written for it
    exactly when no high surrogate in it is directly followed by a low
    surrogate; otherwise what is read back is shorter. *)
Theorem string_round_trip_iff (s : pystr) :
  Forall (λ c, (c < 0x110000)%N) s →
  (Json.load (Json.dump (PStr s)) = Some (PStr s) ↔ str_ok s = true) ∧
  ∃ s', Json.load (Json.dump (PStr s)) = Some (PStr s') ∧
        length s' ≤ length s.
Proof.
  intros Hvalid.
  destruct (scanstring_escape_any (length s) s [] (le_n _) Hvalid)
    as (s' & Hscan & Hsame & Hless & Hle).
  assert (Json.load (Json.dump (PStr s)) = Some (PStr s')) as Hload.
  { unfold Json.load, Json.dump.
    change (Json.iterencode 0 (PStr s))
      with (34%N :: Json.escape s ++ [34%N]).
    rewrite skip_ws_stop by done. simpl. rewrite Hscan. simpl.
    by rewrite skip_ws_nil. }
  split; [|by exists s'].
  rewrite Hload. split.
  - intros [= ->]. destruct (str_ok s); [done|].
    specialize (Hless eq_refl). lia.
  - intros Hok. by rewrite Hsame.
Qed.

(** ** The further properties at work on samples *)

Lemma last_seen_NoDup words : NoDup (last_seen words).
Proof. apply NoDup_remove_dups. Qed.

Lemma last_seen_elem words w : w ∈ last_seen words ↔ w ∈ words.
Proof. apply elem_of_remove_dups. Qed.

Lemma entity_map_index_witness :
  sample_entity_map !! lit "Paris" = Some (lit "e1") ↔
  ∃ e, e ∈ sample_entities ∧ Entity.label e = lit "Paris"
       ∧ Entity.id e = lit "e1".
Proof.
  pose proof (entity_map_index no_unicode first_seen sample_text
                first_seen_NoDup first_seen_elem) as H.
  unfold sample_entity_map, sample_entities.
  destruct (extract_entities no_unicode first_seen sample_text).
  exact (proj1 H (lit "Paris") (lit "e1")).
Defined.

Lemma labels_are_words_of_text_witness :
  entity_of 0 (lit "Paris") ∈ sample_entities ∧
  is_capitalized (lit "Paris") = true ∧
  ∃ pre post, sample_text = pre ++ lit "Paris" ++ post.
Proof.
  assert (entity_of 0 (lit "Paris") ∈ sample_entities) as H.
  { apply (list_elem_of_lookup_2 _ 0). by vm_compute. }
  split; [exact H|].
  exact (labels_are_words_of_text no_unicode first_seen sample_text _
           first_seen_elem H).
Defined.

Lemma findall_word_by_word_witness :
  is_capitalized (lit "Paris") = true ∧
  Regex.is_word no_unicode 32 = false ∧
  Regex.findall no_unicode (lit "Paris" ++ 32%N :: lit "is nice in June.")
  = lit "Paris" :: Regex.findall no_unicode (lit "is nice in June.").
Proof.
  assert (is_capitalized (lit "Paris") = true) as H1 by (by vm_compute).
  assert (Regex.is_word no_unicode 32 = false) as H2 by (by vm_compute).
  split; [exact H1|]. split; [exact H2|].
  exact (proj1 (findall_word_by_word no_unicode _ _
                  (lit "is nice in June.") H1 H2)).
Defined.

Lemma country_without_UK_witness :
  entity_of 6 (lit "France") ∈ sample_entities ∧
  Entity.label (entity_of 6 (lit "France")) ≠ lit "UK".
Proof.
  assert (entity_of 6 (lit "France") ∈ sample_entities) as H.
  { apply (list_elem_of_lookup_2 _ 6). by vm_compute. }
  split; [exact H|].
  exact (proj1 (country_without_UK no_unicode first_seen sample_text _
                  first_seen_elem H)).
Defined.

Lemma entity_count_witness :
  length sample_entities
  = length (remove_dups (Regex.findall no_unicode sample_text)).
Proof.
  exact (proj1 (entity_count no_unicode first_seen sample_text
                  first_seen_NoDup first_seen_elem)).
Defined.

Lemma triples_chain_witness :
  extract_relations sample_entities sample_entity_map
  = Ok (sample_relations, sample_triples) ∧
  ∀ i t t', sample_triples !! i = Some t →
            sample_triples !! (i + 1) = Some t' →
            Triple.object t = Triple.subject t'.
Proof.
  split; [exact sample_run|].
  exact (proj2 (triples_chain _ _ _ _ sample_run)).
Defined.

Lemma relations_all_used_witness :
  extract_relations sample_entities sample_entity_map
  = Ok (sample_relations, sample_triples) ∧
  NoDup sample_relations ∧
  length sample_relations ≤ length sample_triples ∧
  ∀ k r, sample_relations !! k = Some r →
    ∃ t, sample_triples !! k = Some t ∧ Triple.predicate t = r.
Proof.
  split; [exact sample_run|].
  exact (relations_all_used _ _ _ _ sample_run).
Defined.

Lemma relations_independent_of_order_witness :
  (extract_entities no_unicode first_seen repeat_text).1
  ≠ (extract_entities no_unicode last_seen repeat_text).1 ∧
  extract_relations (extract_entities no_unicode first_seen repeat_text).1
                    (extract_entities no_unicode first_seen repeat_text).2
  = extract_relations (extract_entities no_unicode last_seen repeat_text).1
                      (extract_entities no_unicode last_seen repeat_text).2.
Proof.
  split.
  - vm_compute. discriminate.
  - exact (relations_independent_of_order no_unicode first_seen last_seen
             repeat_text first_seen_NoDup first_seen_elem
             last_seen_NoDup last_seen_elem).
Defined.

Lemma note_id_of_path_witness :
  (47%N ∉ lit "n1-draft.txt") ∧
  split_head 45 (basename (lit "/notes" ++ 47%N :: lit "n1-draft.txt"))
  = split_head 45 (basename (lit "n1-draft.txt")).
Proof.
  assert (47%N ∉ lit "n1-draft.txt") as H.
  { apply (bool_decide_unpack _). by vm_compute. }
  split; [exact H|].
  exact (proj1 (note_id_of_path (lit "/notes") _ H)).
Defined.

Lemma cli_result_round_trip_witness :
  Json.load (Json.dump (cli_result sample_input sample_graph))
  = Some (cli_result sample_input sample_graph).
Proof.
  apply (cli_result_round_trip sample_input sample_graph).
  - by vm_compute.
  - intros e He. unfold sample_graph in He. simpl in He.
    rewrite !elem_of_cons, elem_of_nil in He.
    repeat (destruct He as [->|He]; [by vm_compute|]). done.
  - intros r Hr. unfold sample_graph in Hr. simpl in Hr.
    rewrite !elem_of_cons, elem_of_nil in Hr.
    repeat (destruct Hr as [->|Hr]; [by vm_compute|]). done.
  - intros t Ht. unfold sample_graph in Ht. simpl in Ht.
    rewrite !elem_of_cons, elem_of_nil in Ht.
    repeat (destruct Ht as [->|Ht]; [by vm_compute|]). done.
Defined.

Lemma predicate_by_position_witness :
  extract_relations sample_entities sample_entity_map
  = Ok (sample_relations, sample_triples) ∧
  ∀ i t, sample_triples !! i = Some t →
    relation_types !! (i mod 4) = Some (Triple.predicate t).
Proof.
  split; [exact sample_run|].
  exact (predicate_by_position _ _ _ _ sample_run).
Defined.

Lemma closed_vocabulary_witness :
  extract_relations sample_entities sample_entity_map
  = Ok (sample_relations, sample_triples) ∧
  ∀ t, t ∈ sample_triples → Triple.predicate t ∈ relation_types.
Proof.
  split; [exact sample_run|].
  exact (proj2 (proj2 (closed_vocabulary no_unicode first_seen sample_text
                         _ _ sample_run))).
Defined.

Lemma string_round_trip_iff_witness :
  Forall (λ c, (c < 0x110000)%N) [0xd800; 0xdc00]%N ∧
  (Json.load (Json.dump (PStr [0xd800; 0xdc00]%N))
   = Some (PStr [0xd800; 0xdc00]%N)
   ↔ str_ok [0xd800; 0xdc00]%N = true).
Proof.
  assert (Forall (λ c, (c < 0x110000)%N) [0xd800; 0xdc00]%N) as H.
  { repeat constructor. }
  split; [exact H|].
  exact (proj1 (string_round_trip_iff _ H)).
Defined.
